(** * A shallow embedding of cmd/git-gc/main.go

    The program finds every git repository under a root directory
    ([findDirectories]) and runs [git gc] on each of them from a Bubble Tea
    program ([model.Init], [model.Update], [model.View]).  This file embeds
    the directory walk, the model and its update function, and the Bubble
    Tea runtime that feeds command results back into [Update]. *)

From Stdlib Require Import String Ascii List ZArith QArith Lia Permutation.
From Stdlib Require Import Sorting.Sorted Bool DecimalString.
Import ListNotations.
Open Scope string_scope.
Open Scope list_scope.
Open Scope Z_scope.
Set Warnings "-register-all".

(* ================================================================== *)
(** ** Results of fallible Go functions *)

(** The errors [findDirectories] can return. *)
Inductive error :=
| ErrUserHomeDir                 (* os.UserHomeDir failed *)
| ErrAbs (p : string)            (* filepath.Abs failed *)
| ErrStat (p : string)           (* os.Stat(root): no such file *)
| ErrNotDir (msg : string)       (* "root dir '...' is not a directory" *)
| ErrPermission (p : string).    (* readdir of [p] failed inside filepath.Walk *)

(** [(T, error)] return pairs with the [if err != nil { return ... }] idiom. *)
Inductive result (A : Type) :=
| Ok (a : A)
| Err (e : error).
Arguments Ok {A} a.
Arguments Err {A} e.

Definition bind {A B} (r : result A) (k : A -> result B) : result B :=
  match r with
  | Ok a => k a
  | Err e => Err e
  end.

Notation "x <- c ;; k" := (bind c (fun x => k))
  (at level 61, c at next level, right associativity).

(* ================================================================== *)
(** ** The file system seen by [findDirectories] *)

(** A file-system node.  A directory lists its entries in the order
    [readDirNames] returns them (sorted by name); [readable] is false when
    listing it fails (permission denied).  Symbolic links are not modelled:
    on the modelled trees [os.Stat] and [os.Lstat] agree. *)
Inductive node :=
| File
| Dir (readable : bool) (entries : list (string * node)).

(** Induction over nodes with a hypothesis for every entry of a directory. *)
Definition node_ind' (P : node -> Prop) (HF : P File)
  (HD : forall r ents, Forall (fun e => P (snd e)) ents -> P (Dir r ents)) :
  forall n, P n :=
  fix go n :=
    match n with
    | File => HF
    | Dir r ents =>
        HD r ents
          ((fix goL (l : list (string * node)) : Forall (fun e => P (snd e)) l :=
              match l with
              | [] => Forall_nil _
              | e :: t => Forall_cons e (go (snd e)) (goL t)
              end) ents)
    end.

(** The process environment: the home directory, [filepath.Abs] composed with
    [os.ExpandEnv] (both depend on the working directory and the environment
    variables), and the node found at an absolute path. *)
Record env := mkEnv {
  user_home_dir : option string;
  abs_expand : string -> option string;
  lookup : string -> option node
}.

(** [filepath.Join(path, name)] for a clean absolute [path] and an entry
    name (no separator, not "." or ".."). *)
Definition join (path name : string) : string :=
  if String.eqb path "/" then ("/" ++ name)%string
  else (path ++ "/" ++ name)%string.

Fixpoint base_aux (s cur : string) : string :=
  match s with
  | EmptyString => cur
  | String c s' =>
      if Ascii.eqb c "/"%char then base_aux s' "" else base_aux s' (cur ++ String c "")%string
  end.

(** [filepath.Base] of a clean absolute path: its last element, "/" for the
    root.  This is [info.Name()] of the root passed to [filepath.Walk]. *)
Definition base (p : string) : string :=
  let b := base_aux p "" in
  if String.eqb b "" then (if String.eqb p "" then "." else "/") else b.

(** [hashset.New[string]()] as a duplicate-free list; [Add] inserts an
    element that is absent. *)
Definition hashset := list string.

Definition hs_add (x : string) (s : hashset) : hashset :=
  if existsb (String.eqb x) s then s else s ++ [x].

(** [os.Stat(filepath.Join(path, ".git"))] succeeds: the directory has an
    entry called [.git], whatever its kind. *)
Definition stat_dotgit (ents : list (string * node)) : bool :=
  existsb (fun e => String.eqb (fst e) ".git") ents.

(** The callback given to [filepath.Walk] (lines 231-243): [err] is the error
    Walk passes in, the result is the callback's return value together with
    the updated set [dirs]. *)
Definition walkFn (path name : string) (info : node) (err : option error)
    (dirs : hashset) : result hashset :=
  match err with
  | Some e => Err e
  | None =>
      match info with
      | Dir _ ents =>
          if negb (String.prefix "." name) then
            if stat_dotgit ents then Ok (hs_add path dirs) else Ok dirs
          else Ok dirs
      | File => Ok dirs
      end
  end.

(** Run [f] on every element in order, stopping at the first error. *)
Fixpoint for_each {A} (f : A -> hashset -> result hashset) (l : list A)
    (dirs : hashset) : result hashset :=
  match l with
  | [] => Ok dirs
  | x :: l' => d <- f x dirs ;; for_each f l' d
  end.

(** Go's [filepath.walk]: a file is passed to the callback; a directory is
    listed, passed to the callback with the listing error, and, if neither
    failed, its entries are walked in order.  The callback never returns
    [SkipDir], so that case is absent. *)
Fixpoint walk (path name : string) (info : node) (dirs : hashset)
    {struct info} : result hashset :=
  match info with
  | File => walkFn path name File None dirs
  | Dir readable ents =>
      let err := if readable then None else Some (ErrPermission path) in
      match walkFn path name info err dirs, err with
      | Err e, _ => Err e
      | Ok d, Some _ => Ok d
      | Ok d, None =>
          for_each (fun e d => walk (join path (fst e)) (fst e) (snd e) d) ents d
      end
  end.

(** Every node [walk] visits, with its path and name, in visiting order. *)
Fixpoint walk_order (path name : string) (n : node) : list (string * string * node) :=
  (path, name, n) ::
  match n with
  | File => []
  | Dir _ ents => flat_map (fun e => walk_order (join path (fst e)) (fst e) (snd e)) ents
  end.

(** [slices.Sort] on strings: Go compares strings bytewise, as
    [String.compare] does.  Written as an insertion sort; the sorted
    permutation of a list is unique. *)
Fixpoint insert_sorted (x : string) (l : list string) : list string :=
  match l with
  | [] => [x]
  | y :: l' => if String.leb x y then x :: l else y :: insert_sorted x l'
  end.

Definition slices_Sort (l : list string) : list string :=
  fold_right insert_sorted [] l.

(** Lines 208-219: default to the home directory, then
    [filepath.Abs(os.ExpandEnv(rootDir))]. *)
Definition resolve_root (e : env) (rootDir : string) : result string :=
  rd <- (if String.eqb rootDir "" then
           match user_home_dir e with Some h => Ok h | None => Err ErrUserHomeDir end
         else Ok rootDir) ;;
  match abs_expand e rd with
  | Some root => Ok root
  | None => Err (ErrAbs rd)
  end.

(** [findDirectories].  [values] is the order in which [dirs.Values()]
    returns the elements of the hash set: Go leaves it unspecified, so it is
    a parameter (a permutation of the set, see [values_ok]). *)
Definition findDirectories (values : hashset -> list string) (e : env)
    (rootDir : string) : result (list string) :=
  root <- resolve_root e rootDir ;;
  match lookup e root with
  | None => Err (ErrStat root)
  | Some File => Err (ErrNotDir ("root dir '" ++ root ++ "' is not a directory")%string)
  | Some info =>
      dirs <- walk root (base root) info [] ;;
      Ok (slices_Sort (values dirs))
  end.

Definition values_ok (values : hashset -> list string) : Prop :=
  forall s, Permutation (values s) s.

(* ================================================================== *)
(** ** The Bubble Tea model *)

(** The fields of [model] that the program reads or writes.  Go [int]s are
    [Z]; the spinner and the styles only render and are left out.
    [progress_target] is the fraction last given to [progress.SetPercent]
    (float64 division written as exact division in [Q]). *)
Record model := mkModel {
  directories : list string;
  width : Z;
  height : Z;
  progress_target : Q;
  done : bool;
  concurrency : Z;   (* user-supplied concurrency *)
  inFlight : Z;      (* how many GCs are currently running *)
  nextIndex : Z;     (* which dir to spawn next *)
  index : Z          (* how many GCs completed *)
}.

(** A [tea.Cmd] by its effects: the [git gc] processes it starts
    ([runGitGC] commands), the lines it prints above the program (the
    checkmark lines, one per completed directory) and whether it quits. *)
Record cmd := mkCmd {
  gc_runs : list string;
  prints : list string;
  quits : bool
}.

Definition cmd_nil : cmd := mkCmd [] [] false.

(** [tea.Batch] and [tea.Sequence] combine the effects of their commands. *)
Definition tea_Batch (cs : list cmd) : cmd :=
  mkCmd (flat_map gc_runs cs) (flat_map prints cs) (existsb quits cs).

Definition tea_Quit : cmd := mkCmd [] [] true.

(** [m.spinner.Tick] and the animation started by [progress.SetPercent]. *)
Definition spinner_Tick : cmd := cmd_nil.
Definition progress_anim : cmd := cmd_nil.

(** [tea.Printf("%s %s", m.styles.checkmark, pkg)]: one checkmark line. *)
Definition checkmark_line (pkg : string) : cmd := mkCmd [] [pkg] false.

(** [runGitGC dir]: a command that runs [git -C dir gc] with its output
    discarded. *)
Definition runGitGC (dir : string) : cmd := mkCmd [dir] [] false.

(** The messages [Update] can receive.  [QuitCmdAsMsg] is the value
    [tea.Quit] itself (a [tea.Cmd], a function) returned as a [tea.Msg] by
    the callback of [runGitGC]; it is not a [tea.QuitMsg]. *)
Inductive msg :=
| WindowSizeMsg (w h : Z)
| KeyMsg (key : string)
| DirGitGCCompleted (dir : string)
| SpinnerTickMsg
| ProgressFrameMsg
| QuitMsg
| QuitCmdAsMsg.

(** The callback of [tea.ExecProcess] in [runGitGC] (lines 257-263):
    [exit_ok] is false when [cmd.Run()] returned an error (the process
    could not start or exited with a non-zero status). *)
Definition runGitGC_callback (dir : string) (exit_ok : bool) : msg :=
  if exit_ok then DirGitGCCompleted dir else QuitCmdAsMsg.

(** [newModel]'s model for the directories found (lines 186-196). *)
Definition initial_model (dirs : list string) (concurrency : Z) : model :=
  mkModel dirs 0 0 0%Q false concurrency 0 0 0.

Definition Zlen {A} (l : list A) : Z := Z.of_nat (length l).

(** [m.directories[i]]; callers only index in range. *)
Definition dir_at (m : model) (i : Z) : string := nth (Z.to_nat i) (directories m) "".

(** The loop of [Init] (lines 81-85) on the receiver [m], which is a copy:
    it returns the commands and the updated copy. *)
Fixpoint init_spawn (k : nat) (m : model) : list cmd * model :=
  match k with
  | O => ([], m)
  | S k' =>
      let c := runGitGC (dir_at m (nextIndex m)) in
      let m1 := mkModel (directories m) (width m) (height m) (progress_target m)
                  (done m) (concurrency m) (inFlight m + 1) (nextIndex m + 1) (index m) in
      let '(cs, m2) := init_spawn k' m1 in
      (c :: cs, m2)
  end.

(** The result of [Init]: a command, or a run-time panic. *)
Inductive init_result :=
| InitPanic      (* make([]tea.Cmd, toSpawn) with toSpawn < 0 *)
| InitCmd (c : cmd).

(** [func (m model) Init() tea.Cmd].  The receiver is a value, so the
    model updated by the loop is dropped: [Init] returns a command only. *)
Definition Init (m : model) : init_result :=
  if Nat.eqb (length (directories m)) 0 then
    InitCmd (tea_Batch [spinner_Tick; tea_Quit])
  else
    let toSpawn := Z.min (concurrency m) (Zlen (directories m)) in
    if toSpawn <? 0 then InitPanic
    else
      let '(initialCmds, _) := init_spawn (Z.to_nat toSpawn) m in
      InitCmd (tea_Batch [spinner_Tick; tea_Batch initialCmds]).

(** [case "ctrl+c", "esc", "q":] *)
Definition is_quit_key (k : string) : bool :=
  existsb (String.eqb k) ["ctrl+c"; "esc"; "q"].

(** [func (m model) Update(msg tea.Msg) (tea.Model, tea.Cmd)]. *)
Definition Update (m : model) (ms : msg) : model * cmd :=
  match ms with
  | WindowSizeMsg w h =>
      (mkModel (directories m) w h (progress_target m) (done m) (concurrency m)
         (inFlight m) (nextIndex m) (index m), cmd_nil)
  | KeyMsg k =>
      if is_quit_key k then (m, tea_Quit)
      else (m, cmd_nil)
  | DirGitGCCompleted pkg =>
      let total := Zlen (directories m) in
      let idx := index m + 1 in
      let inf := inFlight m - 1 in
      let pct := (inject_Z idx / inject_Z total)%Q in
      let progressCmd := progress_anim in
      let checkMarkCmd := checkmark_line pkg in
      let '(nextCmd, next, inf) :=
        if nextIndex m <? total
        then (runGitGC (dir_at m (nextIndex m)), nextIndex m + 1, inf + 1)
        else (cmd_nil, nextIndex m, inf) in
      if idx >=? total then
        (mkModel (directories m) (width m) (height m) pct true (concurrency m) inf next idx,
         tea_Batch [progressCmd; checkMarkCmd; tea_Quit])
      else
        (mkModel (directories m) (width m) (height m) pct (done m) (concurrency m) inf next idx,
         tea_Batch [progressCmd; checkMarkCmd; nextCmd])
  | SpinnerTickMsg => (m, cmd_nil)
  | ProgressFrameMsg => (m, cmd_nil)
  | QuitMsg => (m, tea_Quit)
  | QuitCmdAsMsg => (m, cmd_nil)
  end.

Definition z2s (z : Z) : string := NilZero.string_of_int (Z.to_int z).

(** What [View] shows: the final message, or the running line with its
    parts (the spinner glyph and the padding are left out, and [info] is
    shown before truncation to the terminal width). *)
Inductive view :=
| ViewDone (text : string)
| ViewRunning (info : string) (bar : Q) (pkgCount : string).

Definition View (m : model) : view :=
  let total := Zlen (directories m) in
  if done m then
    ViewDone ("Done! Ran garbage collection on " ++ z2s total ++ " repos.")%string
  else
    ViewRunning ("Cleaning repos... " ++ z2s (index m) ++ "/" ++ z2s total ++ " complete")%string
      (progress_target m)
      (" " ++ z2s (index m) ++ "/" ++ z2s total)%string.

(* ================================================================== *)
(** ** [newModel] and [main] *)

(** [newModel] (lines 177-197). *)
Definition newModel (values : hashset -> list string) (e : env) (rootDir : string)
    (concurrency : Z) : result model :=
  dirs <- findDirectories values e rootDir ;;
  Ok (initial_model dirs concurrency).

(** The Bubble Tea runtime.  [pending] are the [git gc] processes started
    and not yet finished, [dispatched] every [runGitGC] command the runtime
    has executed, [printed] the checkmark lines, [quitting] whether a quit
    command has run (no message is delivered after it). *)
Record world := mkWorld {
  w_model : model;
  pending : list string;
  quitting : bool;
  dispatched : list string;
  printed : list string
}.

(** The program starts: [Init] runs on the model; the model itself is kept
    as it was ([Init] cannot return one).  [None] is the panic in [Init]. *)
Definition init_world (m : model) : option world :=
  match Init m with
  | InitPanic => None
  | InitCmd c => Some (mkWorld m (gc_runs c) (quits c) (gc_runs c) (prints c))
  end.

(** Deliver a message to [Update] and execute the command it returns. *)
Definition deliver (w : world) (ms : msg) : world :=
  if quitting w then w
  else
    let '(m', c) := Update (w_model w) ms in
    mkWorld m' (pending w ++ gc_runs c) (quits c) (dispatched w ++ gc_runs c)
      (printed w ++ prints c).

(** Input from the terminal. *)
Inductive ui_input :=
| Resize (w h : Z)
| Key (k : string)
| Tick
| Frame.

Definition ui_msg (u : ui_input) : msg :=
  match u with
  | Resize w h => WindowSizeMsg w h
  | Key k => KeyMsg k
  | Tick => SpinnerTickMsg
  | Frame => ProgressFrameMsg
  end.

(** What can happen next: the [k]-th pending [git gc] process exits
    (successfully or not), or the terminal sends an input.  Processes may
    finish in any order. *)
Inductive event :=
| GCExited (k : nat) (exit_ok : bool)
| UIInput (u : ui_input).

Fixpoint remove_nth {A} (k : nat) (l : list A) : list A :=
  match k, l with
  | _, [] => []
  | O, _ :: l' => l'
  | S k', x :: l' => x :: remove_nth k' l'
  end.

Definition step (w : world) (ev : event) : world :=
  match ev with
  | GCExited k ok =>
      match nth_error (pending w) k with
      | None => w
      | Some d =>
          deliver (mkWorld (w_model w) (remove_nth k (pending w)) (quitting w)
                     (dispatched w) (printed w))
            (runGitGC_callback d ok)
      end
  | UIInput u => deliver w (ui_msg u)
  end.

Definition run_events (evs : list event) (w : world) : world :=
  fold_left step evs w.

(** How a run of the program ends up. *)
Inductive main_outcome :=
| MainExit (code : Z)           (* os.Exit(code) before the program runs *)
| MainInitPanic                 (* the program panics in [Init] *)
| MainRun (w : world).          (* the program runs from [w] *)

(** The body of [main] once the flags have their values (lines 55-64). *)
Definition run_main (values : hashset -> list string) (e : env) (rootDir : string)
    (parallel : Z) : main_outcome :=
  match newModel values e rootDir parallel with
  | Err _ => MainExit 1
  | Ok m =>
      match init_world m with
      | None => MainInitPanic
      | Some w => MainRun w
      end
  end.

(** [main]: [flag.Parse] is never called, so the flags keep their defaults:
    the root is "" (the home directory) and [parallel] is [runtime.NumCPU()]. *)
Definition main (values : hashset -> list string) (e : env) (numCPU : Z) : main_outcome :=
  run_main values e "" numCPU.

(** Directories below which the walk meets a directory it cannot list. *)
Inductive unreadable_below : node -> Prop :=
| ub_here ents : unreadable_below (Dir false ents)
| ub_entry r ents e : In e ents -> unreadable_below (snd e) -> unreadable_below (Dir r ents).

(** The directories of a list of visited nodes that [walkFn] adds to the
    set: not hidden, with a [.git] entry. *)
Definition qualified_in (p : string) (l : list (string * string * node)) : Prop :=
  exists nm r ents, In (p, nm, Dir r ents) l /\ String.prefix "." nm = false /\
    stat_dotgit ents = true.

(** What [walk] guarantees when it returns [Ok acc']. *)
Definition walk_post (path name : string) (n : node) (acc acc' : hashset) : Prop :=
  (forall p, In p acc' <-> In p acc \/ qualified_in p (walk_order path name n)) /\
  (NoDup acc -> NoDup acc').

(** The order [slices.Sort] sorts by. *)
Definition str_le (a b : string) : Prop := String.leb a b = true.

(** [String.compare] as a strict order. *)
Definition str_lt (a b : string) : Prop := String.compare a b = Lt.

(** The scheduler counters of a model reached from [initial_model dirs c]. *)
Definition counters_ok (dirs : list string) (c : Z) (m : model) : Prop :=
  directories m = dirs /\ concurrency m = c /\ 0 <= index m /\
  nextIndex m = Z.min (index m) (Zlen dirs) /\
  inFlight m = nextIndex m - index m /\
  (done m = false -> index m <= Zlen dirs).

(** A world with nothing running that has not finished. *)
Definition idle_world (w : world) : Prop :=
  pending w = [] /\ done (w_model w) = false.

(** A sample tree under "/r": a repository [a], a directory [b] whose [.git]
    is a regular file (as in a git worktree), and a repository nested in the
    hidden directory [.hidden]. *)
Definition example_tree : node :=
  Dir true [(".hidden", Dir true [("repo", Dir true [(".git", Dir true [])])]);
            ("a", Dir true [(".git", Dir true [("objects", Dir true [])]); ("f.txt", File)]);
            ("b", Dir true [(".git", File)])].

Definition example_env : env :=
  mkEnv (Some "/r") (fun s => Some s)
    (fun p => if String.eqb p "/r" then Some example_tree else None).

(** The path of the first directory, in a list of visited nodes, that
    cannot be listed. *)
Fixpoint first_unreadable (l : list (string * string * node)) : option string :=
  match l with
  | [] => None
  | (p, _, Dir false _) :: _ => Some p
  | _ :: l' => first_unreadable l'
  end.

(** What holds at every state the runtime reaches from
    [initial_model dirs c]. *)
Definition run_inv (dirs : list string) (c : Z) (w : world) : Prop :=
  counters_ok dirs c (w_model w) /\
  (done (w_model w) = true ->
     index (w_model w) = Zlen dirs /\ 0 < index (w_model w) /\ quitting w = true) /\
  (done (w_model w) = false -> dirs <> [] -> index (w_model w) < Zlen dirs) /\
  Zlen (printed w) = index (w_model w) /\
  progress_target (w_model w) =
    (if index (w_model w) =? 0 then 0%Q
     else (inject_Z (index (w_model w)) / inject_Z (Zlen dirs))%Q) /\
  (forall d, In d (dispatched w) -> In d dirs) /\
  (forall d, In d (pending w) -> In d dirs) /\
  (forall d, In d (printed w) -> In d dirs) /\
  (length (pending w) <= Z.to_nat (Z.min c (Zlen dirs)))%nat.

(** The outcome of a walk: success when no visited directory is
    unreadable, otherwise the permission error of the first one. *)
Definition walk_outcome (path name : string) (n : node) (acc : hashset) : Prop :=
  (exists acc', walk path name n acc = Ok acc' /\
     first_unreadable (walk_order path name n) = None) \/
  (exists p, walk path name n acc = Err (ErrPermission p) /\
     first_unreadable (walk_order path name n) = Some p).

(* ================================================================== *)
(** ** The event loop of [tea.Program] *)

(** [world] and [step] above are a coarse runtime: they deliver no message
    once a quit command has run and apply all effects of a command at once.
    Bubble Tea's [Program.Run] works differently: [tea.Batch] hands each of
    its commands to a goroutine of its own, each command's message reaches
    [eventLoop] at a time of its own, and the loop keeps calling [Update]
    until it takes the [QuitMsg] itself.  A [job] is a command started whose
    message the loop has not taken yet. *)
Inductive job :=
| JExec (dir : string)     (* execMsg of [runGitGC dir] *)
| JPrint (line : string)   (* printLineMessage of [tea.Printf] *)
| JQuit                    (* QuitMsg of [tea.Quit] *)
| JMsg (ms : msg).         (* a message for [Update], sent by [p.Send] *)

(** The jobs a command starts. *)
Definition cmd_jobs (c : cmd) : list job :=
  map JExec (gc_runs c) ++ map JPrint (prints c) ++ (if quits c then [JQuit] else []).

(** A running program: the model, the jobs whose message has not reached
    the loop, whether [eventLoop] has returned, the [git gc] processes run
    and the lines printed, in order. *)
Record program := mkProgram {
  p_model : model;
  p_jobs : list job;
  p_exited : bool;
  p_ran : list string;
  p_printed : list string
}.

(** [Program.Run]: [Init] runs and its command is started. *)
Definition p_init (m : model) : option program :=
  match Init m with
  | InitPanic => None
  | InitCmd c => Some (mkProgram m (cmd_jobs c) false [] [])
  end.

(** [model, cmd = model.Update(msg)], then the command is started. *)
Definition p_update (p : program) (ms : msg) : program :=
  let '(m', c) := Update (p_model p) ms in
  mkProgram m' (p_jobs p ++ cmd_jobs c) (p_exited p) (p_ran p) (p_printed p).

(** What can happen next: the message of the [k]-th job reaches the loop
    ([exit_ok] is the outcome of [git gc] for an execMsg), or the terminal
    sends an input. *)
Inductive p_event :=
| Handle (k : nat) (exit_ok : bool)
| Input (u : ui_input).

(** One turn of [eventLoop].  A QuitMsg makes the loop return without
    calling [Update].  An execMsg blocks the loop while [git gc] runs; the
    callback's message is then sent from a goroutine ([go p.Send(fn(err))]),
    so it becomes a job.  A printLineMessage prints its line.  The loop
    also passes execMsg and printLineMessage to [Update], whose default case
    returns [m, nil]: that call changes nothing and is left out. *)
Definition p_step (p : program) (ev : p_event) : program :=
  if p_exited p then p
  else
    match ev with
    | Input u => p_update p (ui_msg u)
    | Handle k ok =>
        match nth_error (p_jobs p) k with
        | None => p
        | Some j =>
            let rest := remove_nth k (p_jobs p) in
            match j with
            | JQuit => mkProgram (p_model p) rest true (p_ran p) (p_printed p)
            | JPrint s => mkProgram (p_model p) rest false (p_ran p) (p_printed p ++ [s])
            | JExec d =>
                mkProgram (p_model p) (rest ++ [JMsg (runGitGC_callback d ok)]) false
                  (p_ran p ++ [d]) (p_printed p)
            | JMsg ms => p_update (mkProgram (p_model p) rest false (p_ran p) (p_printed p)) ms
            end
        end
    end.

Definition p_run (evs : list p_event) (p : program) : program :=
  fold_left p_step evs p.

(** The checkmark lines still waiting to be printed. *)
Fixpoint count_prints (js : list job) : nat :=
  match js with
  | [] => O
  | JPrint _ :: js' => S (count_prints js')
  | _ :: js' => count_prints js'
  end.

(** A job of a program started on [dirs]: [git gc] and checkmarks only for
    listed directories. *)
Definition job_ok (dirs : list string) (j : job) : Prop :=
  match j with
  | JExec d => In d dirs
  | JPrint s => In s dirs
  | JQuit => True
  | JMsg ms => forall d, ms = DirGitGCCompleted d -> In d dirs
  end.

(** What holds at every state of a program started on
    [initial_model dirs c]. *)
Definition prog_inv (dirs : list string) (c : Z) (p : program) : Prop :=
  counters_ok dirs c (p_model p) /\
  (done (p_model p) = true <-> 0 < index (p_model p) /\ Zlen dirs <= index (p_model p)) /\
  (0 < index (p_model p) -> dirs <> []) /\
  progress_target (p_model p) =
    (if index (p_model p) =? 0 then 0%Q
     else (inject_Z (index (p_model p)) / inject_Z (Zlen dirs))%Q) /\
  Zlen (p_printed p) + Z.of_nat (count_prints (p_jobs p)) = index (p_model p) /\
  (forall d, In d (p_printed p) -> In d dirs) /\
  (forall d, In d (p_ran p) -> In d dirs) /\
  Forall (job_ok dirs) (p_jobs p).

(** A sample run: three directories and concurrency 2; [Init] starts the
    first two. *)
Definition demo_dirs : list string := ["/r/a"; "/r/b"; "/r/c"].

Definition demo_world0 : world :=
  mkWorld (initial_model demo_dirs 2) ["/r/a"; "/r/b"] false ["/r/a"; "/r/b"] [].

Definition demo_events : list event :=
  [GCExited 1 true; UIInput (Resize 80 24); GCExited 0 true].

Definition demo_program0 : program :=
  mkProgram (initial_model demo_dirs 2) [JExec "/r/a"; JExec "/r/b"] false [] [].

Definition demo_p_events : list p_event :=
  [Handle 0 true; Input (Resize 80 24); Handle 1 true; Handle 1 false; Handle 0 true].

(** A home directory with an unreadable directory two levels down. *)
Definition locked_env : env :=
  mkEnv (Some "/home/u") (fun s => Some s)
    (fun p => if String.eqb p "/home/u"
              then Some (Dir true [("a", Dir true [("secret", Dir false [])]);
                                   ("b", Dir false [])])
              else None).

(* ================================================================== *)
(** ** The scheduler: lemmas *)

Section Scheduler.

(** Turn the boolean comparisons of [Update] into arithmetic facts. *)
Ltac zbool :=
  repeat match goal with
  | H : (_ <? _) = true |- _ => apply Z.ltb_lt in H
  | H : (_ <? _) = false |- _ => apply Z.ltb_ge in H
  | H : (_ >=? _) = true |- _ => rewrite Z.geb_le in H
  | H : (_ >=? _) = false |- _ => rewrite Z.geb_leb, Z.leb_gt in H
  end.

Lemma Update_nextIndex_mono (m : model) (ms : msg) :
  nextIndex m <= nextIndex (fst (Update m ms)).
Proof.
  destruct ms; simpl; try lia.
  - destruct (is_quit_key key); simpl; lia.
  - destruct (nextIndex m <? Zlen (directories m)) eqn:Hn;
      destruct (index m + 1 >=? Zlen (directories m)); simpl; lia.
Qed.

Lemma Update_counters_ok (dirs : list string) (c : Z) (m : model) (ms : msg) :
  counters_ok dirs c m -> counters_ok dirs c (fst (Update m ms)).
Proof.
  intros (Hd & Hc & H0 & Hn & Hf & Hdone).
  destruct ms; simpl; try (repeat split; assumption).
  - destruct (is_quit_key key); simpl; repeat split; assumption.
  - rewrite Hd in *.
    destruct (nextIndex m <? Zlen dirs) eqn:Hlt;
      destruct (index m + 1 >=? Zlen dirs) eqn:Hge; zbool;
      unfold counters_ok; simpl; repeat split; try assumption; try lia;
      try (intros Hf'; first [discriminate Hf' | lia]);
      destruct (Z.min_spec (index m) (Zlen dirs)) as [[? ?]|[? ?]];
      destruct (Z.min_spec (index m + 1) (Zlen dirs)) as [[? ?]|[? ?]]; lia.
Qed.

Lemma deliver_model (w : world) (ms : msg) :
  w_model (deliver w ms) = if quitting w then w_model w else fst (Update (w_model w) ms).
Proof.
  unfold deliver. destruct (quitting w); [reflexivity|].
  destruct (Update (w_model w) ms); reflexivity.
Qed.

Lemma step_model (w : world) (ev : event) :
  w_model (step w ev) = w_model w \/ exists ms, w_model (step w ev) = fst (Update (w_model w) ms).
Proof.
  destruct ev as [k ok | u]; simpl.
  - destruct (nth_error (pending w) k); [|left; reflexivity].
    rewrite deliver_model; simpl. destruct (quitting w); [left; reflexivity|].
    right; eexists; reflexivity.
  - rewrite deliver_model. destruct (quitting w); [left; reflexivity|].
    right; eexists; reflexivity.
Qed.

Lemma step_counters_ok (dirs : list string) (c : Z) (w : world) (ev : event) :
  counters_ok dirs c (w_model w) -> counters_ok dirs c (w_model (step w ev)).
Proof.
  intros H. destruct (step_model w ev) as [-> | [ms ->]]; [assumption|].
  apply Update_counters_ok; assumption.
Qed.

Lemma run_events_counters_ok (dirs : list string) (c : Z) (evs : list event) (w : world) :
  counters_ok dirs c (w_model w) -> counters_ok dirs c (w_model (run_events evs w)).
Proof.
  revert w; induction evs as [|ev evs IH]; intros w H; simpl; [assumption|].
  apply IH, step_counters_ok, H.
Qed.

Lemma step_nextIndex_mono (w : world) (ev : event) :
  nextIndex (w_model w) <= nextIndex (w_model (step w ev)).
Proof.
  destruct (step_model w ev) as [-> | [ms ->]]; [lia|].
  apply Update_nextIndex_mono.
Qed.

Lemma init_world_model (m : model) (w : world) :
  init_world m = Some w -> w_model w = m.
Proof.
  unfold init_world. destruct (Init m); intros H; inversion H; reflexivity.
Qed.

Lemma initial_counters_ok (dirs : list string) (c : Z) :
  counters_ok dirs c (initial_model dirs c).
Proof.
  unfold counters_ok, Zlen; simpl; repeat split; try lia.
Qed.

(** Terminal input never starts a [git gc] nor sets [done]. *)
Lemma Update_ui (m : model) (u : ui_input) :
  done (fst (Update m (ui_msg u))) = done m /\ gc_runs (snd (Update m (ui_msg u))) = [].
Proof.
  destruct u; simpl; auto.
  destruct (is_quit_key k); simpl; auto.
Qed.

Lemma step_idle (w : world) (ev : event) : idle_world w -> idle_world (step w ev).
Proof.
  intros [Hp Hd]. destruct ev as [k ok | u]; simpl.
  - rewrite Hp. destruct k; split; assumption.
  - unfold deliver. destruct (quitting w); [split; assumption|].
    pose proof (Update_ui (w_model w) u) as [H1 H2].
    destruct (Update (w_model w) (ui_msg u)) as [m' c] eqn:E.
    unfold idle_world; simpl in *.
    split; [rewrite Hp, H2; reflexivity | rewrite H1; assumption].
Qed.

Lemma run_events_idle (evs : list event) (w : world) :
  idle_world w -> idle_world (run_events evs w).
Proof.
  revert w; induction evs as [|ev evs IH]; intros w H; simpl; [assumption|].
  apply IH, step_idle, H.
Qed.

End Scheduler.

(* ================================================================== *)
(** ** The directory walk: lemmas *)

Section Walk.

Lemma hs_add_In (x p : string) (s : hashset) : In p (hs_add x s) <-> p = x \/ In p s.
Proof.
  unfold hs_add. destruct (existsb (String.eqb x) s) eqn:E.
  - apply existsb_exists in E as [y [Hy Hxy]]. apply String.eqb_eq in Hxy; subst.
    split; [auto | intros [->|H]; auto].
  - rewrite in_app_iff; simpl. split; intros [H|H]; intuition.
Qed.

Lemma hs_add_NoDup (x : string) (s : hashset) : NoDup s -> NoDup (hs_add x s).
Proof.
  intros H. unfold hs_add. destruct (existsb (String.eqb x) s) eqn:E; [exact H|].
  apply (Permutation_NoDup (Permutation_cons_append s x)). constructor; [|exact H].
  intros Hin. assert (existsb (String.eqb x) s = true) as E'; [|congruence].
  apply existsb_exists. exists x. split; [exact Hin | apply String.eqb_refl].
Qed.

Lemma qualified_in_nil (p : string) : ~ qualified_in p [].
Proof. intros (nm & r & ents & [] & _). Qed.

Lemma qualified_in_app (p : string) (l1 l2 : list (string * string * node)) :
  qualified_in p (l1 ++ l2) <-> qualified_in p l1 \/ qualified_in p l2.
Proof.
  unfold qualified_in; split.
  - intros (nm & r & ents & Hin & H1 & H2). apply in_app_iff in Hin as [Hin|Hin].
    + left; eauto 7.
    + right; eauto 7.
  - intros [(nm & r & ents & Hin & H1 & H2)|(nm & r & ents & Hin & H1 & H2)];
      exists nm, r, ents; rewrite in_app_iff; auto.
Qed.

Lemma qualified_in_cons (p path name : string) (n : node) (l : list (string * string * node)) :
  qualified_in p ((path, name, n) :: l) <->
  (p = path /\ exists r ents, n = Dir r ents /\ String.prefix "." name = false /\
     stat_dotgit ents = true) \/ qualified_in p l.
Proof.
  unfold qualified_in; simpl; split.
  - intros (nm & r & ents & [Heq|Hin] & H1 & H2).
    + inversion Heq; subst. left; eauto 6.
    + right; eauto 7.
  - intros [[-> (r & ents & -> & H1 & H2)]|(nm & r & ents & Hin & H1 & H2)].
    + exists name, r, ents; auto.
    + exists nm, r, ents; auto.
Qed.

Lemma qualified_in_cons_dir (p path name : string) (r : bool) (ents : list (string * node))
    (l : list (string * string * node)) :
  qualified_in p ((path, name, Dir r ents) :: l) <->
  (p = path /\ negb (String.prefix "." name) && stat_dotgit ents = true) \/ qualified_in p l.
Proof.
  rewrite qualified_in_cons. split.
  - intros [[-> (r' & ents' & Heq & H1 & H2)]|H]; [|tauto].
    inversion Heq; subst. left. rewrite H1, H2. auto.
  - intros [[-> H]|H]; [|tauto]. apply andb_true_iff in H as [H1 H2].
    apply negb_true_iff in H1. left. eauto 6.
Qed.

Lemma walk_dir (path name : string) (ents : list (string * node)) (acc : hashset) :
  walk path name (Dir true ents) acc =
  for_each (fun e d => walk (join path (fst e)) (fst e) (snd e) d) ents
    (if negb (String.prefix "." name) && stat_dotgit ents then hs_add path acc else acc).
Proof.
  simpl. destruct (String.prefix "." name), (stat_dotgit ents); reflexivity.
Qed.

Lemma for_each_walk (path : string) (ents : list (string * node)) :
  Forall (fun e => forall path name acc acc',
            walk path name (snd e) acc = Ok acc' -> walk_post path name (snd e) acc acc') ents ->
  forall acc acc',
  for_each (fun e d => walk (join path (fst e)) (fst e) (snd e) d) ents acc = Ok acc' ->
  (forall p, In p acc' <-> In p acc \/
     qualified_in p (flat_map (fun e => walk_order (join path (fst e)) (fst e) (snd e)) ents)) /\
  (NoDup acc -> NoDup acc').
Proof.
  induction ents as [|x ents IHe]; intros HF acc acc' H; simpl in H.
  - inversion H; subst. split; [|auto].
    intros p; simpl. pose proof (qualified_in_nil p). tauto.
  - inversion HF as [|? ? Hx HF']; subst.
    destruct (walk (join path (fst x)) (fst x) (snd x) acc) as [a|er] eqn:E;
      simpl in H; [|discriminate].
    apply Hx in E as [E1 E2]. apply (IHe HF') in H as [F1 F2]. split.
    + intros p. simpl. rewrite F1, E1, qualified_in_app. tauto.
    + auto.
Qed.

(** The set built by a successful walk: exactly the qualifying visited
    directories, without duplicates. *)
Lemma walk_spec (n : node) :
  forall path name acc acc', walk path name n acc = Ok acc' -> walk_post path name n acc acc'.
Proof.
  induction n as [|r ents IH] using node_ind'; intros path name acc acc' H.
  - simpl in H. inversion H; subst. split; [|auto].
    intros p. simpl. rewrite qualified_in_cons.
    pose proof (qualified_in_nil p).
    split; [auto|]. intros [Hp|[[_ (r & ents & Heq & _)]|Hq]]; [auto|discriminate|tauto].
  - destruct r; [|simpl in H; discriminate].
    rewrite walk_dir in H. apply (for_each_walk path ents IH) in H as [F1 F2]. split.
    + intros p. rewrite F1. cbn [walk_order]. rewrite qualified_in_cons_dir.
      assert (In p (if negb (String.prefix "." name) && stat_dotgit ents
                    then hs_add path acc else acc) <->
              (p = path /\ negb (String.prefix "." name) && stat_dotgit ents = true) \/ In p acc)
        as ->; [|tauto].
      destruct (negb _ && _); [rewrite hs_add_In|]; intuition discriminate.
    + intros Hd. apply F2. destruct (negb _ && _); [apply hs_add_NoDup|]; exact Hd.
Qed.

Lemma for_each_fails {A} (f : A -> hashset -> result hashset) (l : list A) (x : A) :
  In x l -> (forall acc, exists er, f x acc = Err er) ->
  forall acc, exists er, for_each f l acc = Err er.
Proof.
  intros Hin Hx. induction l as [|y l IH]; [destruct Hin|]. intros acc.
  destruct Hin as [->|Hin]; simpl.
  - destruct (Hx acc) as [er ->]. eexists; reflexivity.
  - destruct (f y acc) as [a|er]; simpl; [apply IH, Hin | eexists; reflexivity].
Qed.

(** A walk that meets a directory it cannot list fails. *)
Lemma walk_unreadable (n : node) :
  unreadable_below n -> forall path name acc, exists er, walk path name n acc = Err er.
Proof.
  induction 1 as [ents | r ents e Hin _ IH]; intros path name acc.
  - eexists; reflexivity.
  - destruct r; [|eexists; reflexivity].
    rewrite walk_dir. eapply for_each_fails; [exact Hin|]. intros acc'. apply IH.
Qed.

(** Every node below a visited node is visited. *)
Lemma walk_order_trans (n : node) :
  forall path name p nm n' x,
  In (p, nm, n') (walk_order path name n) -> In x (walk_order p nm n') ->
  In x (walk_order path name n).
Proof.
  induction n as [|r ents IH] using node_ind'; intros path name p nm n' x H1 H2.
  - destruct H1 as [Heq|[]]. inversion Heq; subst. exact H2.
  - destruct H1 as [Heq|H1].
    + inversion Heq; subst. exact H2.
    + right. apply in_flat_map in H1 as [e [He H1]]. apply in_flat_map.
      exists e. split; [exact He|].
      rewrite Forall_forall in IH. eapply IH; eassumption.
Qed.

Lemma findDirectories_ok (values : hashset -> list string) (e : env) (rootDir : string)
    (ds : list string) :
  findDirectories values e rootDir = Ok ds ->
  exists root info dirs, resolve_root e rootDir = Ok root /\ lookup e root = Some info /\
    walk root (base root) info [] = Ok dirs /\ ds = slices_Sort (values dirs).
Proof.
  unfold findDirectories.
  destruct (resolve_root e rootDir) as [root|er] eqn:R; simpl; [|discriminate].
  destruct (lookup e root) as [[|r ents]|] eqn:L; try discriminate.
  destruct (walk root (base root) (Dir r ents) []) as [dirs|er] eqn:W; simpl; [|discriminate].
  intros H; inversion H; subst. exists root, (Dir r ents), dirs. repeat split; first [reflexivity | assumption].
Qed.

End Walk.

(* ================================================================== *)
(** ** [slices.Sort]: lemmas *)

Section Sort.

Lemma str_leb_compare (a b : string) : String.leb a b = true <-> String.compare a b <> Gt.
Proof. unfold String.leb. destruct (String.compare a b); split; congruence. Qed.

Lemma str_compare_le_trans (a b c : string) :
  String.compare a b <> Gt -> String.compare b c <> Gt -> String.compare a c <> Gt.
Proof.
  revert b c. induction a as [|ca a IH]; intros [|cb b] [|cc c]; simpl; try congruence.
  unfold Ascii.compare.
  destruct (N.compare_spec (N_of_ascii ca) (N_of_ascii cb));
    destruct (N.compare_spec (N_of_ascii cb) (N_of_ascii cc));
    destruct (N.compare_spec (N_of_ascii ca) (N_of_ascii cc));
    try congruence; try lia; eauto.
Qed.

Lemma str_le_trans (a b c : string) : str_le a b -> str_le b c -> str_le a c.
Proof. unfold str_le; rewrite !str_leb_compare. apply str_compare_le_trans. Qed.

Lemma str_le_total (a b : string) : ~ str_le a b -> str_le b a.
Proof. unfold str_le. destruct (String.leb_total a b); congruence. Qed.

Lemma insert_sorted_perm (x : string) (l : list string) :
  Permutation (insert_sorted x l) (x :: l).
Proof.
  induction l as [|y l IH]; simpl; [reflexivity|].
  destruct (String.leb x y); [reflexivity|].
  rewrite IH. apply perm_swap.
Qed.

Lemma slices_Sort_perm (l : list string) : Permutation (slices_Sort l) l.
Proof.
  induction l as [|x l IH]; simpl; [reflexivity|].
  rewrite insert_sorted_perm. apply perm_skip, IH.
Qed.

Lemma insert_sorted_sorted (x : string) (l : list string) :
  Sorted str_le l -> Sorted str_le (insert_sorted x l).
Proof.
  induction 1 as [|y l Hs IH Hd]; simpl; [repeat constructor|].
  destruct (String.leb x y) eqn:E; [constructor; [constructor; assumption | constructor; exact E]|].
  constructor; [exact IH|].
  assert (str_le y x) as Hyx by (apply str_le_total; unfold str_le; congruence).
  destruct l as [|z l]; simpl; [constructor; exact Hyx|].
  inversion Hd; subst. destruct (String.leb x z); constructor; assumption.
Qed.

Lemma slices_Sort_sorted (l : list string) : Sorted str_le (slices_Sort l).
Proof.
  induction l as [|x l IH]; simpl; [constructor|]. apply insert_sorted_sorted, IH.
Qed.

Lemma sorted_perm_unique (l1 l2 : list string) :
  Sorted str_le l1 -> Sorted str_le l2 -> Permutation l1 l2 -> l1 = l2.
Proof.
  intros H1 H2. apply Sorted_StronglySorted in H1; [|exact str_le_trans].
  apply Sorted_StronglySorted in H2; [|exact str_le_trans].
  revert l2 H2. induction H1 as [|a l1 H1 IH Ha]; intros l2 H2 Hp.
  - symmetry. apply Permutation_nil, Hp.
  - destruct l2 as [|b l2]; [apply Permutation_sym, Permutation_nil in Hp; discriminate|].
    inversion H2 as [|? ? H2' Hb]; subst.
    assert (a = b) as <-.
    { assert (In a (b :: l2)) as [Hab|Hin] by (eapply Permutation_in; [exact Hp | left; reflexivity]);
        [symmetry; exact Hab|].
      assert (In b (a :: l1)) as [Hba|Hin'] by
        (eapply Permutation_in; [apply Permutation_sym, Hp | left; reflexivity]); [auto|].
      rewrite Forall_forall in Ha, Hb.
      apply String.leb_antisym; [apply Ha, Hin' | apply Hb, Hin]. }
    f_equal. apply IH; [exact H2'|]. eapply Permutation_cons_inv; exact Hp.
Qed.

Lemma slices_Sort_perm_eq (l1 l2 : list string) :
  Permutation l1 l2 -> slices_Sort l1 = slices_Sort l2.
Proof.
  intros Hp. apply sorted_perm_unique; try apply slices_Sort_sorted.
  rewrite !slices_Sort_perm. exact Hp.
Qed.

Lemma sorted_nodup_strict (l : list string) :
  Sorted str_le l -> NoDup l -> StronglySorted str_lt l.
Proof.
  intros Hs Hd. apply Sorted_StronglySorted in Hs; [|exact str_le_trans].
  induction Hs as [|a l Hs IH Ha]; constructor.
  - apply IH. inversion Hd; assumption.
  - inversion Hd as [|? ? Hna _]; subst. rewrite Forall_forall in *.
    intros b Hb. specialize (Ha b Hb). unfold str_le, str_lt in *.
    apply str_leb_compare in Ha. destruct (String.compare a b) eqn:E; try congruence.
    apply String.compare_eq_iff in E; subst. contradiction.
Qed.

End Sort.

(* ================================================================== *)
(** ** The enumeration: lemmas *)

Section Enumeration.

Lemma findDirectories_members (values : hashset -> list string) (e : env)
    (rootDir root : string) (info : node) (ds : list string) :
  values_ok values -> resolve_root e rootDir = Ok root -> lookup e root = Some info ->
  findDirectories values e rootDir = Ok ds ->
  forall p, In p ds <-> qualified_in p (walk_order root (base root) info).
Proof.
  intros Hv Hr Hl H p.
  apply findDirectories_ok in H as (root' & info' & dirs & Hr' & Hl' & W & ->).
  rewrite Hr in Hr'; inversion Hr'; subst. rewrite Hl in Hl'; inversion Hl'; subst.
  apply walk_spec in W as [W _].
  assert (Permutation (slices_Sort (values dirs)) dirs) as Hp
    by (rewrite slices_Sort_perm; apply Hv).
  split; intros H.
  - apply (Permutation_in _ Hp), W in H as [[]|H]; exact H.
  - apply (Permutation_in _ (Permutation_sym Hp)), W. right; exact H.
Qed.

End Enumeration.

(* ================================================================== *)
(** ** Further properties: lemmas *)

Section Further.

Lemma skipn_nth_cons {A} (l : list A) (j : nat) (d : A) :
  (j < length l)%nat -> skipn j l = nth j l d :: skipn (S j) l.
Proof.
  revert j; induction l as [|x l IH]; intros j H; simpl in H; [lia|].
  destruct j; [reflexivity|]. simpl. apply IH. lia.
Qed.

Lemma init_spawn_effects (k : nat) (m : model) :
  0 <= nextIndex m -> (Z.to_nat (nextIndex m) + k <= length (directories m))%nat ->
  flat_map gc_runs (fst (init_spawn k m)) =
    firstn k (skipn (Z.to_nat (nextIndex m)) (directories m)) /\
  flat_map prints (fst (init_spawn k m)) = [] /\
  existsb quits (fst (init_spawn k m)) = false.
Proof.
  revert m; induction k as [|k IH]; intros m H0 Hk; [simpl; auto|].
  cbn [init_spawn].
  set (m1 := mkModel (directories m) (width m) (height m) (progress_target m)
               (done m) (concurrency m) (inFlight m + 1) (nextIndex m + 1) (index m)).
  destruct (init_spawn k m1) as [cs m2] eqn:E.
  assert (H1 : 0 <= nextIndex m1) by (simpl; lia).
  assert (H2 : (Z.to_nat (nextIndex m1) + k <= length (directories m1))%nat)
    by (simpl; rewrite Z2Nat.inj_add by lia; simpl in Hk; lia).
  destruct (IH m1 H1 H2) as (G & P & Q). rewrite E in G, P, Q. simpl in G, P, Q.
  simpl. rewrite G, P, Q. split; [|auto].
  rewrite (skipn_nth_cons (directories m) (Z.to_nat (nextIndex m)) "") by lia.
  rewrite Z2Nat.inj_add by lia. change (Z.to_nat 1) with 1%nat. rewrite Nat.add_1_r.
  reflexivity.
Qed.

(** What [Init] does on the model [newModel] builds. *)
Lemma Init_initial (dirs : list string) (c : Z) (cm : cmd) :
  Init (initial_model dirs c) = InitCmd cm ->
  gc_runs cm = firstn (Z.to_nat (Z.min c (Zlen dirs))) dirs /\ prints cm = [] /\
  (quits cm = true <-> dirs = []) /\ (dirs <> [] -> 0 <= c).
Proof.
  unfold Init; simpl. destruct (Nat.eqb (length dirs) 0) eqn:Hl.
  - apply Nat.eqb_eq, length_zero_iff_nil in Hl; subst. intros H; inversion H; subst.
    simpl. rewrite firstn_nil. repeat split; auto; intros Hn; exfalso; apply Hn; reflexivity.
  - apply Nat.eqb_neq in Hl.
    destruct (Z.min c (Zlen dirs) <? 0) eqn:Hm; [discriminate|]. apply Z.ltb_ge in Hm.
    destruct (init_spawn (Z.to_nat (Z.min c (Zlen dirs))) (initial_model dirs c)) as [cs m2] eqn:E.
    intros H; inversion H; subst; clear H.
    destruct (init_spawn_effects (Z.to_nat (Z.min c (Zlen dirs))) (initial_model dirs c))
      as (G & P & Q); simpl; try lia.
    { unfold Zlen in *. lia. }
    rewrite E in G, P, Q. simpl in G, P, Q. simpl.
    rewrite app_nil_r, G, P, Q. repeat split; try reflexivity; try discriminate.
    all: try (intros Hq; discriminate Hq).
    all: try (intros Hd; subst; simpl in Hl; lia).
    all: intros _; unfold Zlen in *; lia.
Qed.

(** [Update] on a message other than a completion. *)
Lemma Update_not_completed (m : model) (ms : msg) :
  (forall d, ms <> DirGitGCCompleted d) ->
  directories (fst (Update m ms)) = directories m /\ done (fst (Update m ms)) = done m /\
  index (fst (Update m ms)) = index m /\ nextIndex (fst (Update m ms)) = nextIndex m /\
  inFlight (fst (Update m ms)) = inFlight m /\
  progress_target (fst (Update m ms)) = progress_target m /\
  gc_runs (snd (Update m ms)) = [] /\ prints (snd (Update m ms)) = [].
Proof.
  intros H. destruct ms; simpl; try (repeat split; reflexivity).
  - destruct (is_quit_key key); repeat split; reflexivity.
  - exfalso; eapply H; reflexivity.
Qed.

(** [Update] on a completion. *)
Lemma Update_completed (m : model) (pkg : string) :
  index (fst (Update m (DirGitGCCompleted pkg))) = index m + 1 /\
  directories (fst (Update m (DirGitGCCompleted pkg))) = directories m /\
  progress_target (fst (Update m (DirGitGCCompleted pkg))) =
    (inject_Z (index m + 1) / inject_Z (Zlen (directories m)))%Q /\
  prints (snd (Update m (DirGitGCCompleted pkg))) = [pkg] /\
  (index m + 1 >= Zlen (directories m) ->
     done (fst (Update m (DirGitGCCompleted pkg))) = true /\
     quits (snd (Update m (DirGitGCCompleted pkg))) = true /\
     gc_runs (snd (Update m (DirGitGCCompleted pkg))) = []) /\
  (index m + 1 < Zlen (directories m) ->
     done (fst (Update m (DirGitGCCompleted pkg))) = done m /\
     quits (snd (Update m (DirGitGCCompleted pkg))) = false /\
     (length (gc_runs (snd (Update m (DirGitGCCompleted pkg)))) <= 1)%nat /\
     forall d, In d (gc_runs (snd (Update m (DirGitGCCompleted pkg)))) ->
       d = dir_at m (nextIndex m) /\ nextIndex m < Zlen (directories m)).
Proof.
  simpl.
  destruct (nextIndex m <? Zlen (directories m)) eqn:Hlt;
    destruct (index m + 1 >=? Zlen (directories m)) eqn:Hge; simpl;
    apply Z.ltb_lt in Hlt || apply Z.ltb_ge in Hlt;
    (rewrite Z.geb_le in Hge || rewrite Z.geb_leb, Z.leb_gt in Hge);
    repeat split; try reflexivity; try lia;
    intros; try lia; try contradiction.
  all: destruct H0 as [H0|[]]; subst; reflexivity.
Qed.

Lemma remove_nth_length {A} (k : nat) (l : list A) (x : A) :
  nth_error l k = Some x -> length (remove_nth k l) = pred (length l).
Proof.
  revert k; induction l as [|y l IH]; intros [|k] H; simpl in *; try discriminate; [lia|].
  rewrite (IH k H). destruct l; [destruct k; discriminate|]. reflexivity.
Qed.

Lemma remove_nth_In {A} (k : nat) (l : list A) (x : A) : In x (remove_nth k l) -> In x l.
Proof.
  revert k; induction l as [|y l IH]; intros [|k] H; simpl in *; auto.
  destruct H as [H|H]; [left; exact H | right; exact (IH k H)].
Qed.

Lemma nth_error_length {A} (k : nat) (l : list A) (x : A) :
  nth_error l k = Some x -> (0 < length l)%nat.
Proof. destruct l; [destruct k; discriminate | simpl; lia]. Qed.

Lemma nth_error_In' {A} (k : nat) (l : list A) (x : A) : nth_error l k = Some x -> In x l.
Proof. apply nth_error_In. Qed.

Lemma firstn_In' {A} (n : nat) (l : list A) (x : A) : In x (firstn n l) -> In x l.
Proof. intros H. rewrite <- (firstn_skipn n l). apply in_or_app. left; exact H. Qed.

Lemma Init_no_panic (dirs : list string) (c : Z) :
  0 <= c -> Init (initial_model dirs c) <> InitPanic.
Proof.
  intros Hc. unfold Init; simpl. destruct (Nat.eqb (length dirs) 0); [discriminate|].
  assert ((Z.min c (Zlen dirs) <? 0) = false) as -> by (apply Z.ltb_ge; unfold Zlen; lia).
  destruct (init_spawn _ _). discriminate.
Qed.

Lemma run_inv_init (dirs : list string) (c : Z) (w0 : world) :
  init_world (initial_model dirs c) = Some w0 -> run_inv dirs c w0.
Proof.
  unfold init_world. destruct (Init (initial_model dirs c)) as [|cm] eqn:E; [discriminate|].
  intros H; inversion H; subst; clear H.
  destruct (Init_initial dirs c cm E) as (G & P & Q & C).
  unfold run_inv; simpl. rewrite G, P.
  split; [apply initial_counters_ok|].
  split; [discriminate|].
  split; [intros _ Hne; destruct dirs; [congruence | unfold Zlen; simpl; lia]|].
  split; [reflexivity|]. split; [reflexivity|].
  split; [intros d Hd; eapply firstn_In'; exact Hd|].
  split; [intros d Hd; eapply firstn_In'; exact Hd|].
  split; [intros d []|].
  apply firstn_le_length.
Qed.

Lemma dir_at_In (m : model) (i : Z) :
  0 <= i < Zlen (directories m) -> In (dir_at m i) (directories m).
Proof.
  intros Hi. unfold dir_at. apply nth_In. unfold Zlen in Hi.
  apply Nat2Z.inj_lt. rewrite Z2Nat.id by lia. lia.
Qed.

Lemma run_inv_remove (dirs : list string) (c : Z) (w : world) (k : nat) (d : string) :
  run_inv dirs c w -> nth_error (pending w) k = Some d ->
  run_inv dirs c (mkWorld (w_model w) (remove_nth k (pending w)) (quitting w)
                    (dispatched w) (printed w)).
Proof.
  intros (Hc & Hdt & Hdf & Hpr & Hpt & Hdis & Hpen & Hprn & Hl) Ek.
  unfold run_inv; simpl. repeat (split; [assumption|]).
  split; [intros x Hx; apply Hpen; eapply remove_nth_In; exact Hx|].
  split; [assumption|].
  rewrite (remove_nth_length _ _ _ Ek). lia.
Qed.

Lemma run_inv_deliver_other (dirs : list string) (c : Z) (w : world) (ms : msg) :
  run_inv dirs c w -> (forall d, ms <> DirGitGCCompleted d) ->
  run_inv dirs c (deliver w ms).
Proof.
  intros Hinv Hms. unfold deliver. destruct (quitting w) eqn:Hq; [exact Hinv|].
  destruct Hinv as (Hc & Hdt & Hdf & Hpr & Hpt & Hdis & Hpen & Hprn & Hl).
  pose proof (Update_counters_ok dirs c (w_model w) ms Hc) as Hc'.
  destruct (Update_not_completed (w_model w) ms Hms) as (Ed & Edn & Ei & En & Ef & Ep & Eg & Epr).
  destruct (Update (w_model w) ms) as [m' cm] eqn:E; simpl in *.
  unfold run_inv; simpl. rewrite Eg, Epr, !app_nil_r, Edn, Ei, Ep.
  split; [exact Hc'|].
  split; [intros Ht; destruct (Hdt Ht) as (_ & _ & Hq'); congruence|].
  repeat (split; [assumption|]). assumption.
Qed.

Lemma run_inv_deliver_completed (dirs : list string) (c : Z) (w : world) (d : string) :
  run_inv dirs c w -> In d dirs ->
  (S (length (pending w)) <= Z.to_nat (Z.min c (Zlen dirs)))%nat ->
  run_inv dirs c (deliver w (DirGitGCCompleted d)).
Proof.
  intros Hinv Hd Hlen.
  unfold deliver. destruct (quitting w) eqn:Hq; [exact Hinv|].
  destruct Hinv as (Hc & Hdt & Hdf & Hpr & Hpt & Hdis & Hpen & Hprn & Hl).
  assert (Hdone : done (w_model w) = false).
  { destruct (done (w_model w)) eqn:E; [|reflexivity].
    destruct (Hdt eq_refl) as (_ & _ & Hq'). congruence. }
  assert (Hne : dirs <> []) by (intros ->; destruct Hd).
  specialize (Hdf Hdone Hne).
  pose proof (Update_counters_ok dirs c (w_model w) (DirGitGCCompleted d) Hc) as Hc'.
  destruct (Update_completed (w_model w) d) as (Ei & Ed & Ep & Epr & Hge & Hlt).
  pose proof Hc as (Hdirs & _ & H0 & Hn & _).
  assert (Hat : forall x, In x (gc_runs (snd (Update (w_model w) (DirGitGCCompleted d)))) ->
                  (x = dir_at (w_model w) (nextIndex (w_model w)) /\
                   nextIndex (w_model w) < Zlen (directories (w_model w))) ->
                  In x dirs).
  { intros x _ [-> Hx]. rewrite <- Hdirs. apply dir_at_In.
    split; [rewrite Hn; unfold Zlen; lia | exact Hx]. }
  destruct (Update (w_model w) (DirGitGCCompleted d)) as [m' cm] eqn:E; simpl in *.
  rewrite Hdirs in *.
  assert (Hpt' : progress_target m' =
            (if index m' =? 0 then 0%Q else (inject_Z (index m') / inject_Z (Zlen dirs))%Q)).
  { rewrite Ei. destruct (index (w_model w) + 1 =? 0) eqn:Z0; [apply Z.eqb_eq in Z0; lia|].
    exact Ep. }
  assert (Hprint : Zlen (printed w ++ prints cm) = index m').
  { rewrite Ei, Epr. unfold Zlen in *. rewrite length_app. simpl. lia. }
  assert (Hprn' : forall x, In x (printed w ++ prints cm) -> In x dirs).
  { intros x Hx. rewrite Epr in Hx. apply in_app_iff in Hx as [Hx|[->|[]]]; auto. }
  unfold run_inv; simpl.
  destruct (Z_lt_ge_dec (index (w_model w) + 1) (Zlen dirs)) as [Hl1|Hg1].
  - destruct (Hlt Hl1) as (Edn & Eq & Elen & Ein).
    split; [exact Hc'|].
    split; [rewrite Edn, Hdone; discriminate|].
    split; [intros _ _; lia|].
    split; [exact Hprint|]. split; [exact Hpt'|].
    split; [intros x Hx; apply in_app_iff in Hx as [Hx|Hx]; [auto | apply (Hat x Hx (Ein x Hx))]|].
    split; [intros x Hx; apply in_app_iff in Hx as [Hx|Hx]; [auto | apply (Hat x Hx (Ein x Hx))]|].
    split; [exact Hprn'|].
    rewrite length_app. lia.
  - destruct (Hge Hg1) as (Edn & Eq & Eg).
    split; [exact Hc'|].
    split; [intros _; rewrite Ei; split; [lia|]; split; [lia | exact Eq]|].
    split; [rewrite Edn; discriminate|].
    split; [exact Hprint|]. split; [exact Hpt'|].
    rewrite Eg, !app_nil_r.
    split; [exact Hdis|]. split; [exact Hpen|]. split; [exact Hprn'|]. lia.
Qed.

Lemma run_inv_step (dirs : list string) (c : Z) (w : world) (ev : event) :
  run_inv dirs c w -> run_inv dirs c (step w ev).
Proof.
  intros H. destruct ev as [k ok | u]; simpl.
  - destruct (nth_error (pending w) k) as [d|] eqn:Ek; [|exact H].
    pose proof (run_inv_remove dirs c w k d H Ek) as H1.
    pose proof H as (_ & _ & _ & _ & _ & _ & Hpen & _ & Hl).
    destruct ok; simpl.
    + apply run_inv_deliver_completed; [exact H1| |].
      * apply Hpen. eapply nth_error_In'; exact Ek.
      * simpl. rewrite (remove_nth_length _ _ _ Ek).
        pose proof (nth_error_length _ _ _ Ek). lia.
    + apply run_inv_deliver_other; [exact H1 | intros d'; discriminate].
  - apply run_inv_deliver_other; [exact H | intros d; destruct u; discriminate].
Qed.

Lemma run_inv_run_events (dirs : list string) (c : Z) (evs : list event) (w : world) :
  run_inv dirs c w -> run_inv dirs c (run_events evs w).
Proof.
  revert w; induction evs as [|ev evs IH]; intros w H; simpl; [exact H|].
  apply IH, run_inv_step, H.
Qed.

(** Every state reached from the start of the program satisfies [run_inv]. *)
Lemma run_inv_reachable (dirs : list string) (c : Z) (evs : list event) (w0 : world) :
  init_world (initial_model dirs c) = Some w0 -> run_inv dirs c (run_events evs w0).
Proof. intros H. apply run_inv_run_events, (run_inv_init _ _ _ H). Qed.

Lemma first_unreadable_app (l1 l2 : list (string * string * node)) :
  first_unreadable (l1 ++ l2) =
  match first_unreadable l1 with Some p => Some p | None => first_unreadable l2 end.
Proof.
  induction l1 as [|[[p nm] n] l1 IH]; [reflexivity|].
  destruct n as [|[|] ents]; simpl; try exact IH; reflexivity.
Qed.

Lemma for_each_walk_outcome (path : string) (ents : list (string * node)) :
  Forall (fun e => forall path name acc, walk_outcome path name (snd e) acc) ents ->
  forall acc,
  (exists acc', for_each (fun e d => walk (join path (fst e)) (fst e) (snd e) d) ents acc = Ok acc' /\
     first_unreadable (flat_map (fun e => walk_order (join path (fst e)) (fst e) (snd e)) ents) = None) \/
  (exists p, for_each (fun e d => walk (join path (fst e)) (fst e) (snd e) d) ents acc =
               Err (ErrPermission p) /\
     first_unreadable (flat_map (fun e => walk_order (join path (fst e)) (fst e) (snd e)) ents) = Some p).
Proof.
  induction ents as [|x ents IHe]; intros HF acc; simpl.
  - left. exists acc. split; reflexivity.
  - inversion HF as [|? ? Hx HF']; subst.
    rewrite first_unreadable_app.
    destruct (Hx (join path (fst x)) (fst x) acc) as [(a & Ea & Fa)|(p & Ea & Fa)];
      rewrite Ea, Fa; simpl.
    + apply (IHe HF' a).
    + right. exists p. split; reflexivity.
Qed.

Lemma walk_first_unreadable (n : node) :
  forall path name acc, walk_outcome path name n acc.
Proof.
  induction n as [|r ents IH] using node_ind'; intros path name acc.
  - left. exists acc. split; reflexivity.
  - destruct r.
    + unfold walk_outcome. rewrite walk_dir. cbn [walk_order first_unreadable].
      apply for_each_walk_outcome. exact IH.
    + right. exists path. split; reflexivity.
Qed.

(** [Update] starts at most one [git gc] and prints at most one line. *)
Lemma Update_effects_small (m : model) (ms : msg) :
  (length (gc_runs (snd (Update m ms))) <= 1)%nat /\
  (length (prints (snd (Update m ms))) <= 1)%nat.
Proof.
  destruct ms; simpl; try (split; simpl; lia).
  - destruct (is_quit_key key); simpl; lia.
  - destruct (nextIndex m <? Zlen (directories m)), (index m + 1 >=? Zlen (directories m));
      simpl; lia.
Qed.

Lemma classic_msg (ms : msg) :
  (exists d, ms = DirGitGCCompleted d) \/ (forall d, ms <> DirGitGCCompleted d).
Proof. destruct ms; try (right; intros d'; discriminate). left; eexists; reflexivity. Qed.

End Further.

(* ================================================================== *)
(** ** The event loop: lemmas *)

Section EventLoop.

Lemma count_prints_app (l1 l2 : list job) :
  count_prints (l1 ++ l2) = (count_prints l1 + count_prints l2)%nat.
Proof.
  induction l1 as [|j l1 IH]; [reflexivity|].
  destruct j; simpl; rewrite ?IH; reflexivity.
Qed.

Lemma count_prints_cmd_jobs (c : cmd) : count_prints (cmd_jobs c) = length (prints c).
Proof.
  unfold cmd_jobs. rewrite !count_prints_app.
  assert (count_prints (map JExec (gc_runs c)) = O) as ->
    by (induction (gc_runs c) as [|x l IH]; [reflexivity | exact IH]).
  assert (count_prints (map JPrint (prints c)) = length (prints c)) as ->
    by (induction (prints c) as [|x l IH]; [reflexivity | simpl; rewrite IH; reflexivity]).
  destruct (quits c); simpl; lia.
Qed.

Lemma count_prints_remove (k : nat) (l : list job) (j : job) :
  nth_error l k = Some j ->
  count_prints l = (count_prints (remove_nth k l) + match j with JPrint _ => 1 | _ => 0 end)%nat.
Proof.
  revert k; induction l as [|y l IH]; intros [|k] H; simpl in H; try discriminate.
  - injection H as ->. simpl. destruct j; lia.
  - simpl. rewrite (IH k H). destruct y; simpl; lia.
Qed.

Lemma cmd_jobs_ok (dirs : list string) (c : cmd) :
  (forall x, In x (gc_runs c) -> In x dirs) -> (forall x, In x (prints c) -> In x dirs) ->
  Forall (job_ok dirs) (cmd_jobs c).
Proof.
  intros Hg Hp. unfold cmd_jobs. rewrite !Forall_app. split; [|split].
  - apply Forall_forall. intros j Hj. apply in_map_iff in Hj as [x [<- Hx]]. exact (Hg x Hx).
  - apply Forall_forall. intros j Hj. apply in_map_iff in Hj as [x [<- Hx]]. exact (Hp x Hx).
  - destruct (quits c); [constructor; [exact I | constructor] | constructor].
Qed.

(** [Update] only starts [git gc] on listed directories. *)
Lemma Update_gc_runs_in (dirs : list string) (c : Z) (m : model) (ms : msg) :
  counters_ok dirs c m -> forall x, In x (gc_runs (snd (Update m ms))) -> In x dirs.
Proof.
  intros (Hd & _ & H0 & Hn & _) x Hx.
  destruct (classic_msg ms) as [[d ->]|Hms].
  - destruct (Update_completed m d) as (_ & _ & _ & _ & Hge & Hlt).
    destruct (Z_lt_ge_dec (index m + 1) (Zlen (directories m))) as [Hl1|Hg1].
    + destruct (Hlt Hl1) as (_ & _ & _ & Ein). destruct (Ein x Hx) as [-> Hx'].
      rewrite <- Hd. apply dir_at_In. split; [rewrite Hn; unfold Zlen; lia | exact Hx'].
    + destruct (Hge Hg1) as (_ & _ & Eg). rewrite Eg in Hx. destruct Hx.
  - destruct (Update_not_completed m ms Hms) as (_ & _ & _ & _ & _ & _ & Eg & _).
    rewrite Eg in Hx. destruct Hx.
Qed.

(** [Update] prints only the directory of a completion. *)
Lemma Update_prints_in (dirs : list string) (m : model) (ms : msg) :
  (forall d, ms = DirGitGCCompleted d -> In d dirs) ->
  forall x, In x (prints (snd (Update m ms))) -> In x dirs.
Proof.
  intros Hms x Hx. destruct (classic_msg ms) as [[d ->]|Hn].
  - destruct (Update_completed m d) as (_ & _ & _ & Epr & _).
    rewrite Epr in Hx. destruct Hx as [<-|[]]. apply Hms; reflexivity.
  - destruct (Update_not_completed m ms Hn) as (_ & _ & _ & _ & _ & _ & _ & Epr).
    rewrite Epr in Hx. destruct Hx.
Qed.

Lemma prog_inv_update_other (dirs : list string) (c : Z) (p : program) (ms : msg) :
  prog_inv dirs c p -> (forall d, ms <> DirGitGCCompleted d) ->
  prog_inv dirs c (p_update p ms).
Proof.
  intros (Hc & Hdn & Hne & Hpt & Hpr & Hprn & Hran & Hjobs) Hms.
  pose proof (Update_counters_ok dirs c (p_model p) ms Hc) as Hc'.
  pose proof (Update_gc_runs_in dirs c (p_model p) ms Hc) as Hg.
  destruct (Update_not_completed (p_model p) ms Hms) as (Ed & Edn & Ei & En & Ef & Ep & Eg & Epr).
  unfold p_update.
  destruct (Update (p_model p) ms) as [m' cm] eqn:E; simpl in *.
  unfold prog_inv; simpl.
  rewrite Edn, Ei, Ep, count_prints_app, count_prints_cmd_jobs, Epr.
  split; [exact Hc'|]. split; [exact Hdn|]. split; [exact Hne|]. split; [exact Hpt|].
  split; [simpl; lia|]. split; [exact Hprn|]. split; [exact Hran|].
  apply Forall_app. split; [exact Hjobs|].
  apply cmd_jobs_ok; [exact Hg | rewrite Epr; intros x []].
Qed.

Lemma prog_inv_update_completed (dirs : list string) (c : Z) (p : program) (d : string) :
  prog_inv dirs c p -> In d dirs -> prog_inv dirs c (p_update p (DirGitGCCompleted d)).
Proof.
  intros (Hc & Hdn & Hne & Hpt & Hpr & Hprn & Hran & Hjobs) Hd.
  pose proof (Update_counters_ok dirs c (p_model p) (DirGitGCCompleted d) Hc) as Hc'.
  pose proof (Update_gc_runs_in dirs c (p_model p) (DirGitGCCompleted d) Hc) as Hg.
  destruct (Update_completed (p_model p) d) as (Ei & Ed & Ep & Epr & Hge & Hlt).
  pose proof Hc as (Hdirs & _ & H0 & _).
  unfold p_update.
  destruct (Update (p_model p) (DirGitGCCompleted d)) as [m' cm] eqn:E; simpl in *.
  rewrite Hdirs in *.
  unfold prog_inv; simpl.
  rewrite count_prints_app, count_prints_cmd_jobs, Epr, Ei.
  split; [exact Hc'|].
  split.
  { destruct (Z_lt_ge_dec (index (p_model p) + 1) (Zlen dirs)) as [Hl1|Hg1].
    - destruct (Hlt Hl1) as (Edn & _). rewrite Edn, Hdn. split; intros [? ?]; lia.
    - destruct (Hge Hg1) as (Edn & _). rewrite Edn.
      split; [intros _; split; lia | intros _; reflexivity]. }
  split; [intros _ Hnil; rewrite Hnil in Hd; destruct Hd|].
  split; [destruct (index (p_model p) + 1 =? 0) eqn:Z0; [apply Z.eqb_eq in Z0; lia | exact Ep]|].
  split; [simpl; lia|].
  split; [exact Hprn|]. split; [exact Hran|].
  apply Forall_app. split; [exact Hjobs|]. apply cmd_jobs_ok; [exact Hg|].
  rewrite Epr. intros x [<-|[]]. exact Hd.
Qed.

Lemma prog_inv_update (dirs : list string) (c : Z) (p : program) (ms : msg) :
  prog_inv dirs c p -> (forall d, ms = DirGitGCCompleted d -> In d dirs) ->
  prog_inv dirs c (p_update p ms).
Proof.
  intros H Hms. destruct (classic_msg ms) as [[d ->]|Hn].
  - apply prog_inv_update_completed; [exact H | apply Hms; reflexivity].
  - apply prog_inv_update_other; assumption.
Qed.

Lemma prog_inv_step (dirs : list string) (c : Z) (p : program) (ev : p_event) :
  prog_inv dirs c p -> prog_inv dirs c (p_step p ev).
Proof.
  intros H. unfold p_step. destruct (p_exited p); [exact H|].
  destruct ev as [k ok | u].
  - destruct (nth_error (p_jobs p) k) as [j|] eqn:Ek; [|exact H].
    pose proof H as (Hc & Hdn & Hne & Hpt & Hpr & Hprn & Hran & Hjobs).
    assert (Hj : job_ok dirs j).
    { rewrite Forall_forall in Hjobs. apply Hjobs. eapply nth_error_In'; exact Ek. }
    assert (Hrest : Forall (job_ok dirs) (remove_nth k (p_jobs p))).
    { rewrite Forall_forall in *. intros x Hx. apply Hjobs. eapply remove_nth_In; exact Hx. }
    pose proof (count_prints_remove k (p_jobs p) j Ek) as Hcnt.
    destruct j as [d|s| |ms]; simpl in Hj, Hcnt.
    + unfold prog_inv; simpl. rewrite count_prints_app. simpl.
      repeat (split; [assumption|]).
      split; [lia|]. split; [assumption|].
      split; [intros x Hx; apply in_app_iff in Hx as [Hx|[<-|[]]]; auto|].
      apply Forall_app. split; [exact Hrest|]. constructor; [|constructor].
      destruct ok; simpl; intros d' E; [injection E as <-; exact Hj | discriminate].
    + unfold prog_inv; simpl.
      repeat (split; [assumption|]).
      split; [unfold Zlen in *; rewrite length_app; simpl; lia|].
      split; [intros x Hx; apply in_app_iff in Hx as [Hx|[<-|[]]]; auto|].
      split; assumption.
    + unfold prog_inv; simpl.
      repeat (split; [assumption|]).
      split; [lia|]. repeat split; assumption.
    + apply prog_inv_update; [|exact Hj].
      unfold prog_inv; simpl.
      repeat (split; [assumption|]).
      split; [lia|]. repeat split; assumption.
  - apply prog_inv_update; [exact H|]. intros d E; destruct u; discriminate.
Qed.

Lemma prog_inv_init (dirs : list string) (c : Z) (p0 : program) :
  p_init (initial_model dirs c) = Some p0 -> prog_inv dirs c p0.
Proof.
  unfold p_init. destruct (Init (initial_model dirs c)) as [|cm] eqn:E; [discriminate|].
  intros H; injection H as <-.
  destruct (Init_initial dirs c cm E) as (G & P & _).
  unfold prog_inv; simpl.
  split; [apply initial_counters_ok|].
  split; [split; [discriminate | intros [? ?]; lia]|].
  split; [intros; lia|]. split; [reflexivity|].
  split; [rewrite count_prints_cmd_jobs, P; reflexivity|].
  split; [intros d []|]. split; [intros d []|].
  apply cmd_jobs_ok; [rewrite G; intros x Hx; eapply firstn_In'; exact Hx | rewrite P; intros x []].
Qed.

(** Every state of a program started on [initial_model dirs c]
    satisfies [prog_inv]. *)
Lemma prog_inv_reachable (dirs : list string) (c : Z) (evs : list p_event) (p0 : program) :
  p_init (initial_model dirs c) = Some p0 -> prog_inv dirs c (p_run evs p0).
Proof.
  intros H. pose proof (prog_inv_init _ _ _ H) as H0. clear H. revert p0 H0.
  induction evs as [|ev evs IH]; intros p0 H0; simpl; [exact H0|].
  apply IH, prog_inv_step, H0.
Qed.

(** A program whose only jobs are quits: [done] stays false and no
    [git gc] runs. *)
Lemma quit_only_step (p : program) (ev : p_event) :
  Forall (fun j => j = JQuit) (p_jobs p) -> done (p_model p) = false ->
  Forall (fun j => j = JQuit) (p_jobs (p_step p ev)) /\ done (p_model (p_step p ev)) = false /\
  p_ran (p_step p ev) = p_ran p.
Proof.
  intros Hj Hd. unfold p_step. destruct (p_exited p); [repeat split; assumption|].
  destruct ev as [k ok | u].
  - destruct (nth_error (p_jobs p) k) as [j|] eqn:Ek; [|repeat split; assumption].
    assert (j = JQuit) as ->.
    { rewrite Forall_forall in Hj. apply Hj. eapply nth_error_In'; exact Ek. }
    simpl. split; [|split; [exact Hd | reflexivity]].
    rewrite Forall_forall in *. intros x Hx. apply Hj. eapply remove_nth_In; exact Hx.
  - assert (Hms : forall d, ui_msg u <> DirGitGCCompleted d) by (intros d; destruct u; discriminate).
    destruct (Update_not_completed (p_model p) (ui_msg u) Hms)
      as (_ & Edn & _ & _ & _ & _ & Eg & Epr).
    unfold p_update. destruct (Update (p_model p) (ui_msg u)) as [m' cm]; simpl in *.
    split; [|split; [rewrite Edn; exact Hd | reflexivity]].
    apply Forall_app. split; [exact Hj|]. unfold cmd_jobs. rewrite Eg, Epr. simpl.
    destruct (quits cm); repeat constructor.
Qed.

Lemma quit_only_run (evs : list p_event) (p : program) :
  Forall (fun j => j = JQuit) (p_jobs p) -> done (p_model p) = false ->
  done (p_model (p_run evs p)) = false /\ p_ran (p_run evs p) = p_ran p.
Proof.
  revert p; induction evs as [|ev evs IH]; intros p Hj Hd; simpl; [auto|].
  destruct (quit_only_step p ev Hj Hd) as (Hj' & Hd' & Hr').
  destruct (IH _ Hj' Hd') as [G1 G2]. split; [exact G1|]. rewrite G2. exact Hr'.
Qed.

(** A running program with no job left exits only after a quit key. *)
Lemma idle_program_exit (evs : list p_event) (p : program) :
  p_jobs p = [] -> p_exited p = false ->
  p_exited (p_run evs p) = true -> exists k, In (Input (Key k)) evs /\ is_quit_key k = true.
Proof.
  revert p; induction evs as [|ev evs IH]; intros p Hj Hx H; simpl in H; [congruence|].
  assert (Hnext : (exists k, ev = Input (Key k) /\ is_quit_key k = true) \/
                  (p_jobs (p_step p ev) = [] /\ p_exited (p_step p ev) = false)).
  { destruct ev as [k ok | u].
    - right. unfold p_step. rewrite Hx, Hj. destruct k; auto.
    - assert (Hq : (exists k, u = Key k /\ is_quit_key k = true) \/
                   snd (Update (p_model p) (ui_msg u)) = cmd_nil).
      { destruct u as [w h|k| |]; simpl; auto.
        destruct (is_quit_key k) eqn:Q; [left; exists k; auto | right; reflexivity]. }
      destruct Hq as [(k & -> & Q)|Hq]; [left; exists k; auto|].
      right. unfold p_step, p_update. rewrite Hx.
      destruct (Update (p_model p) (ui_msg u)) as [m' cm]; simpl in *. subst cm.
      rewrite Hj. auto. }
  destruct Hnext as [(k & -> & Q)|(Hj' & Hx')].
  - exists k. split; [left; reflexivity | exact Q].
  - destruct (IH _ Hj' Hx' H) as (k & Hk & Q). exists k. split; [right; exact Hk | exact Q].
Qed.

End EventLoop.

(* ================================================================== *)
(** ** The claims *)

(** C1 (code bug): one repository whose [git gc] fails.  The callback
    returns [tea.Quit] itself as the message, meaning to end the run, but
    [Update] ignores that value: the failure is not counted, nothing is
    left to run, the program does not quit, and from then on [done] is
    never set, no other [git gc] runs, and the program exits only if the
    user presses a quit key. *)
Theorem failed_gc_hangs :
  exists p0, p_init (initial_model ["/r/a"] 1) = Some p0 /\ p_jobs p0 = [JExec "/r/a"] /\
    let p1 := p_run [Handle 0 false; Handle 0 true] p0 in
    p_ran p1 = ["/r/a"] /\ p_jobs p1 = [] /\ p_exited p1 = false /\
    index (p_model p1) = 0 /\ done (p_model p1) = false /\
    forall evs, done (p_model (p_run evs p1)) = false /\ p_ran (p_run evs p1) = ["/r/a"] /\
      (p_exited (p_run evs p1) = true ->
         exists k, In (Input (Key k)) evs /\ is_quit_key k = true).
Proof.
  exists (mkProgram (initial_model ["/r/a"] 1) [JExec "/r/a"] false [] []).
  split; [reflexivity|]. split; [reflexivity|].
  assert (E : p_run [Handle 0 false; Handle 0 true]
                (mkProgram (initial_model ["/r/a"] 1) [JExec "/r/a"] false [] []) =
              mkProgram (initial_model ["/r/a"] 1) [] false ["/r/a"] []) by reflexivity.
  cbv zeta. rewrite E. simpl.
  do 5 (split; [reflexivity|]).
  intros evs.
  destruct (quit_only_run evs (mkProgram (initial_model ["/r/a"] 1) [] false ["/r/a"] []))
    as [G1 G2]; [constructor | reflexivity|].
  split; [exact G1|]. split; [exact G2|].
  apply idle_program_exit; reflexivity.
Qed.

(** C2 (counterexample): the repository [/r/.hidden/repo] below the hidden
    directory [/r/.hidden] is in the enumerated list. *)
Lemma hidden_repo_enumerated :
  findDirectories (fun s => s) example_env "/r" = Ok ["/r/.hidden/repo"; "/r/a"; "/r/b"].
Proof. vm_compute. reflexivity. Qed.

(** C2 (amended): a hidden directory is not added to the set for itself
    ([walkFn] leaves the set unchanged on it), but the walk descends into
    it: every non-hidden directory below it that has a [.git] entry is in
    the enumerated list. *)
Theorem hidden_dirs_descended (values : hashset -> list string) (e : env)
    (rootDir root : string) (info : node) (ds : list string)
    (ph nmh : string) (rh : bool) (entsh : list (string * node))
    (q nmq : string) (rq : bool) (entsq : list (string * node)) :
  values_ok values -> resolve_root e rootDir = Ok root -> lookup e root = Some info ->
  findDirectories values e rootDir = Ok ds ->
  In (ph, nmh, Dir rh entsh) (walk_order root (base root) info) ->
  String.prefix "." nmh = true ->
  (forall acc, walkFn ph nmh (Dir rh entsh) None acc = Ok acc) /\
  (In (q, nmq, Dir rq entsq) (walk_order ph nmh (Dir rh entsh)) ->
   String.prefix "." nmq = false -> stat_dotgit entsq = true -> In q ds).
Proof.
  intros Hv Hr Hl H Hh Hpre. split.
  - intros acc. unfold walkFn. rewrite Hpre. reflexivity.
  - intros Hq Hnq Hg. eapply findDirectories_members; try eassumption.
    exists nmq, rq, entsq. split; [|auto]. eapply walk_order_trans; eassumption.
Qed.

Lemma hidden_dirs_descended_witness :
  values_ok (fun s => s) /\ resolve_root example_env "/r" = Ok "/r" /\
  lookup example_env "/r" = Some example_tree /\
  findDirectories (fun s => s) example_env "/r" = Ok ["/r/.hidden/repo"; "/r/a"; "/r/b"] /\
  In ("/r/.hidden", ".hidden", Dir true [("repo", Dir true [(".git", Dir true [])])])
     (walk_order "/r" (base "/r") example_tree) /\
  String.prefix "." ".hidden" = true /\
  ((forall acc, walkFn "/r/.hidden" ".hidden"
                  (Dir true [("repo", Dir true [(".git", Dir true [])])]) None acc = Ok acc) /\
   (In ("/r/.hidden/repo", "repo", Dir true [(".git", Dir true [])])
        (walk_order "/r/.hidden" ".hidden" (Dir true [("repo", Dir true [(".git", Dir true [])])])) ->
    String.prefix "." "repo" = false -> stat_dotgit [(".git", Dir true [])] = true ->
    In "/r/.hidden/repo" ["/r/.hidden/repo"; "/r/a"; "/r/b"])).
Proof.
  assert (Hv : values_ok (fun s => s)) by (intros s; reflexivity).
  assert (Hr : resolve_root example_env "/r" = Ok "/r") by reflexivity.
  assert (Hl : lookup example_env "/r" = Some example_tree) by reflexivity.
  assert (Hf : findDirectories (fun s => s) example_env "/r" = Ok ["/r/.hidden/repo"; "/r/a"; "/r/b"])
    by (vm_compute; reflexivity).
  assert (Hin : In ("/r/.hidden", ".hidden", Dir true [("repo", Dir true [(".git", Dir true [])])])
                   (walk_order "/r" (base "/r") example_tree))
    by (vm_compute; repeat (first [left; reflexivity | right])).
  assert (Hp : String.prefix "." ".hidden" = true) by reflexivity.
  split; [exact Hv|]. split; [exact Hr|]. split; [exact Hl|]. split; [exact Hf|].
  split; [exact Hin|]. split; [exact Hp|].
  exact (hidden_dirs_descended _ _ _ _ _ _ _ _ _ _ _ _ _ _ Hv Hr Hl Hf Hin Hp).
Defined.

(** C3 (code bug): [Init] dispatches [/r/a] and [/r/b] but, its receiver
    being a copy, leaves [nextIndex] at 0; the first completion dispatches
    [/r/a] a second time (three dispatches for two items), and the second
    completion sets [done] while that second run of [/r/a] is still
    pending. *)
Theorem duplicate_dispatch :
  exists w0, init_world (initial_model ["/r/a"; "/r/b"] 2) = Some w0 /\
    dispatched w0 = ["/r/a"; "/r/b"] /\
    nextIndex (w_model w0) = 0 /\
    dispatched (run_events [GCExited 0 true] w0) = ["/r/a"; "/r/b"; "/r/a"] /\
    done (w_model (run_events [GCExited 0 true; GCExited 0 true] w0)) = true /\
    pending (run_events [GCExited 0 true; GCExited 0 true] w0) = ["/r/a"].
Proof. eexists; split; [reflexivity|]. vm_compute. repeat split. Qed.

(** C4: at every state the runtime reaches from [initial_model dirs c]
    with [c >= 1], as long as [done] is false,
    [inFlight = nextIndex - index] and [0 <= inFlight <= min c (len dirs)];
    and no event decreases [nextIndex].  (These are the model's counters;
    see C3 for the commands actually started.) *)
Theorem scheduler_counters_invariant (dirs : list string) (c : Z) (evs : list event)
    (w0 : world) :
  1 <= c -> init_world (initial_model dirs c) = Some w0 ->
  (done (w_model (run_events evs w0)) = false ->
     inFlight (w_model (run_events evs w0)) =
       nextIndex (w_model (run_events evs w0)) - index (w_model (run_events evs w0)) /\
     0 <= inFlight (w_model (run_events evs w0)) <= Z.min c (Zlen dirs)) /\
  (forall ev, nextIndex (w_model (run_events evs w0)) <=
              nextIndex (w_model (step (run_events evs w0) ev))).
Proof.
  intros Hc Hinit.
  pose proof (init_world_model _ _ Hinit) as Hm.
  assert (counters_ok dirs c (w_model (run_events evs w0))) as (Hd & Hcc & H0 & Hn & Hf & Hdone).
  { apply run_events_counters_ok. rewrite Hm. apply initial_counters_ok. }
  split.
  - intros Hnd. specialize (Hdone Hnd). split; [exact Hf|].
    rewrite Hf, Hn. unfold Zlen in *.
    destruct (Z.min_spec (index (w_model (run_events evs w0))) (Z.of_nat (length dirs)))
      as [[? ?]|[? ?]]; lia.
  - intros ev. apply step_nextIndex_mono.
Qed.

Lemma scheduler_counters_invariant_witness :
  1 <= 2 /\
  init_world (initial_model ["/r/a"; "/r/b"; "/r/c"] 2) =
    Some (mkWorld (initial_model ["/r/a"; "/r/b"; "/r/c"] 2) ["/r/a"; "/r/b"] false
            ["/r/a"; "/r/b"] []) /\
  let w := run_events [GCExited 0 true]
             (mkWorld (initial_model ["/r/a"; "/r/b"; "/r/c"] 2) ["/r/a"; "/r/b"] false
                ["/r/a"; "/r/b"] []) in
  (done (w_model w) = false ->
     inFlight (w_model w) = nextIndex (w_model w) - index (w_model w) /\
     0 <= inFlight (w_model w) <= Z.min 2 (Zlen ["/r/a"; "/r/b"; "/r/c"])) /\
  (forall ev, nextIndex (w_model w) <= nextIndex (w_model (step w ev))).
Proof.
  assert (Hc : 1 <= 2) by lia.
  assert (Hi : init_world (initial_model ["/r/a"; "/r/b"; "/r/c"] 2) =
    Some (mkWorld (initial_model ["/r/a"; "/r/b"; "/r/c"] 2) ["/r/a"; "/r/b"] false
            ["/r/a"; "/r/b"] [])) by reflexivity.
  split; [exact Hc|]. split; [exact Hi|].
  exact (scheduler_counters_invariant _ _ [GCExited 0 true] _ Hc Hi).
Defined.

(** C5 (code bug): with three items and concurrency 2, [Init] starts items
    0 and 1 but leaves [nextIndex] at 0, so the first completion dispatches
    item 0 again instead of item 2; the run reaches [done] after three
    completions without ever dispatching item 2 ([/r/c]). *)
Theorem dispatch_restarts_at_zero :
  exists w0, init_world (initial_model ["/r/a"; "/r/b"; "/r/c"] 2) = Some w0 /\
    dispatched w0 = ["/r/a"; "/r/b"] /\
    nextIndex (w_model w0) = 0 /\
    dispatched (run_events [GCExited 0 true] w0) = ["/r/a"; "/r/b"; "/r/a"] /\
    done (w_model (run_events [GCExited 0 true; GCExited 0 true; GCExited 0 true] w0)) = true /\
    ~ In "/r/c" (dispatched (run_events [GCExited 0 true; GCExited 0 true; GCExited 0 true] w0)).
Proof.
  eexists; split; [reflexivity|].
  do 4 (split; [vm_compute; reflexivity|]).
  vm_compute. intros H; repeat (destruct H as [H|H]; [discriminate|]); exact H.
Qed.

(** C6 (counterexample): with no directories and concurrency 4, the
    program exits when the loop takes the quit [Init] requested, and at
    that point the [done] flag is not set: the last view is the running
    line, not the final message, with the progress bar at 0. *)
Lemma empty_list_not_done :
  exists p0, p_init (initial_model [] 4) = Some p0 /\
    (let p := p_run [Handle 0 true] p0 in
     p_exited p = true /\ p_ran p = [] /\ done (p_model p) = false /\
     View (p_model p) <> ViewDone "Done! Ran garbage collection on 0 repos." /\
     progress_target (p_model p) = 0%Q).
Proof.
  eexists; split; [reflexivity|]. vm_compute.
  split; [reflexivity|]. split; [reflexivity|]. split; [reflexivity|].
  split; [discriminate|reflexivity].
Qed.

(** C6 (amended): with no directories, [Init] starts no [git gc] and its
    only job is the quit; the program exits when the loop takes it.
    Whatever messages reach [Update] before that (spinner ticks, window
    size, keys), no [git gc] runs, [done] stays false and the progress
    target stays 0, so the view is the running line
    "Cleaning repos... 0/0 complete" with the bar at 0, never the final
    message or a 100% report. *)
Theorem empty_list_quits_undone (c : Z) :
  exists p0, p_init (initial_model [] c) = Some p0 /\ p_jobs p0 = [JQuit] /\
    p_exited (p_run [Handle 0 true] p0) = true /\
    forall evs,
      p_ran (p_run evs p0) = [] /\ done (p_model (p_run evs p0)) = false /\
      progress_target (p_model (p_run evs p0)) = 0%Q /\
      View (p_model (p_run evs p0)) = ViewRunning "Cleaning repos... 0/0 complete" 0%Q " 0/0".
Proof.
  assert (Hi : p_init (initial_model [] c) = Some (mkProgram (initial_model [] c) [JQuit] false [] []))
    by reflexivity.
  eexists; split; [exact Hi|]. split; [reflexivity|]. split; [reflexivity|].
  intros evs.
  destruct (prog_inv_reachable [] c evs _ Hi)
    as ((Hd & _ & H0 & _) & Hdn & Hne & Hpt & _ & _ & Hran & _).
  set (m := p_model (p_run evs (mkProgram (initial_model [] c) [JQuit] false [] []))) in *.
  assert (Hidx : index m = 0).
  { destruct (Z.eq_dec (index m) 0) as [E|E]; [exact E|].
    exfalso. apply (Hne ltac:(lia)). reflexivity. }
  assert (Hdone : done m = false).
  { destruct (done m) eqn:D; [|reflexivity]. destruct (proj1 Hdn eq_refl) as [D1 _]. lia. }
  assert (Hpt0 : progress_target m = 0%Q) by (rewrite Hpt, Hidx; reflexivity).
  split.
  { destruct (p_ran _) as [|x l]; [reflexivity|]. destruct (Hran x (or_introl eq_refl)). }
  split; [exact Hdone|]. split; [exact Hpt0|].
  unfold View. rewrite Hdone, Hd, Hidx, Hpt0. reflexivity.
Qed.

(** C7: whatever order [dirs.Values()] returns, the enumeration gives the
    same result, and a list it returns is sorted strictly by byte-wise
    string order, hence without duplicates. *)
Theorem enumeration_sorted_deterministic (v1 v2 : hashset -> list string) (e : env)
    (rootDir : string) :
  values_ok v1 -> values_ok v2 ->
  findDirectories v1 e rootDir = findDirectories v2 e rootDir /\
  (forall ds, findDirectories v1 e rootDir = Ok ds -> NoDup ds /\ StronglySorted str_lt ds).
Proof.
  intros H1 H2. split.
  - unfold findDirectories. destruct (resolve_root e rootDir) as [root|er]; simpl; [|reflexivity].
    destruct (lookup e root) as [[|r ents]|]; try reflexivity.
    destruct (walk root (base root) (Dir r ents) []) as [dirs|er]; simpl; [|reflexivity].
    f_equal. apply slices_Sort_perm_eq. rewrite (H1 dirs), (H2 dirs). reflexivity.
  - intros ds H. apply findDirectories_ok in H as (root & info & dirs & _ & _ & W & ->).
    assert (NoDup dirs) as Hd by (apply walk_spec in W as [_ Hd]; apply Hd; constructor).
    assert (NoDup (slices_Sort (v1 dirs))) as Hd'.
    { eapply Permutation_NoDup; [|exact Hd]. rewrite slices_Sort_perm. symmetry. apply H1. }
    split; [exact Hd'|]. apply sorted_nodup_strict; [apply slices_Sort_sorted | exact Hd'].
Qed.

Lemma enumeration_sorted_deterministic_witness :
  values_ok (fun s => s) /\ values_ok (@rev string) /\
  findDirectories (fun s => s) example_env "/r" = findDirectories (@rev string) example_env "/r" /\
  (forall ds, findDirectories (fun s => s) example_env "/r" = Ok ds ->
     NoDup ds /\ StronglySorted str_lt ds).
Proof.
  assert (H1 : values_ok (fun s => s)) by (intros s; reflexivity).
  assert (H2 : values_ok (@rev string)) by (intros s; symmetry; apply Permutation_rev).
  split; [exact H1|]. split; [exact H2|].
  exact (enumeration_sorted_deterministic _ _ example_env "/r" H1 H2).
Defined.

(** C8 (counterexample): [/r/b] is enumerated although its [.git] entry is
    a regular file, not a directory. *)
Lemma dotgit_file_enumerated :
  lookup example_env "/r/b" = None /\
  In ("/r/b", "b", Dir true [(".git", File)]) (walk_order "/r" (base "/r") example_tree) /\
  findDirectories (fun s => s) example_env "/r" = Ok ["/r/.hidden/repo"; "/r/a"; "/r/b"].
Proof.
  split; [reflexivity|]. split; [|vm_compute; reflexivity].
  vm_compute. repeat (first [left; reflexivity | right]).
Qed.

(** C8 (amended): a path is in the enumerated list exactly when the walk
    visits a directory at that path whose name does not start with "."
    and which has an entry named [.git], of any kind (directory or
    regular file). *)
Theorem enumeration_membership (values : hashset -> list string) (e : env)
    (rootDir root : string) (info : node) (ds : list string) :
  values_ok values -> resolve_root e rootDir = Ok root -> lookup e root = Some info ->
  findDirectories values e rootDir = Ok ds ->
  forall p, In p ds <->
    exists nm r ents, In (p, nm, Dir r ents) (walk_order root (base root) info) /\
      String.prefix "." nm = false /\ stat_dotgit ents = true.
Proof.
  intros Hv Hr Hl H p. apply (findDirectories_members values e rootDir root info ds Hv Hr Hl H).
Qed.

Lemma enumeration_membership_witness :
  values_ok (fun s => s) /\ resolve_root example_env "/r" = Ok "/r" /\
  lookup example_env "/r" = Some example_tree /\
  findDirectories (fun s => s) example_env "/r" = Ok ["/r/.hidden/repo"; "/r/a"; "/r/b"] /\
  (forall p, In p ["/r/.hidden/repo"; "/r/a"; "/r/b"] <->
    exists nm r ents, In (p, nm, Dir r ents) (walk_order "/r" (base "/r") example_tree) /\
      String.prefix "." nm = false /\ stat_dotgit ents = true).
Proof.
  assert (Hv : values_ok (fun s => s)) by (intros s; reflexivity).
  assert (Hr : resolve_root example_env "/r" = Ok "/r") by reflexivity.
  assert (Hl : lookup example_env "/r" = Some example_tree) by reflexivity.
  assert (Hf : findDirectories (fun s => s) example_env "/r" = Ok ["/r/.hidden/repo"; "/r/a"; "/r/b"])
    by (vm_compute; reflexivity).
  split; [exact Hv|]. split; [exact Hr|]. split; [exact Hl|]. split; [exact Hf|].
  exact (enumeration_membership _ _ _ _ _ _ Hv Hr Hl Hf).
Defined.

(** C9: if the root does not exist, is not a directory, or contains a
    directory the walk cannot list, [findDirectories] returns an error and
    [main] exits with status 1 before the Bubble Tea program (and so any
    [git gc]) starts. *)
Theorem discovery_error_exits (values : hashset -> list string) (e : env) (rootDir : string)
    (parallel : Z) (root : string) :
  resolve_root e rootDir = Ok root ->
  lookup e root = None \/ lookup e root = Some File \/
  (exists info, lookup e root = Some info /\ unreadable_below info) ->
  (exists er, findDirectories values e rootDir = Err er) /\
  run_main values e rootDir parallel = MainExit 1.
Proof.
  intros Hr Hcase.
  assert (exists er, findDirectories values e rootDir = Err er) as [er Her].
  { unfold findDirectories. rewrite Hr. simpl.
    destruct Hcase as [->|[->|(info & -> & Hu)]]; try (eexists; reflexivity).
    destruct info as [|r ents]; [eexists; reflexivity|].
    destruct (walk_unreadable _ Hu root (base root) []) as [er' ->]. eexists; reflexivity. }
  split; [exists er; exact Her|]. unfold run_main, newModel. rewrite Her. reflexivity.
Qed.

Lemma discovery_error_exits_witness :
  let e := mkEnv (Some "/home/u") (fun s => Some s)
             (fun p => if String.eqb p "/home/u"
                       then Some (Dir true [("a", Dir true [("secret", Dir false [])])])
                       else None) in
  resolve_root e "" = Ok "/home/u" /\
  (lookup e "/home/u" = None \/ lookup e "/home/u" = Some File \/
   (exists info, lookup e "/home/u" = Some info /\ unreadable_below info)) /\
  (exists er, findDirectories (fun s => s) e "" = Err er) /\
  run_main (fun s => s) e "" 8 = MainExit 1.
Proof.
  intros e.
  assert (Hr : resolve_root e "" = Ok "/home/u") by reflexivity.
  assert (Hc : lookup e "/home/u" = None \/ lookup e "/home/u" = Some File \/
               (exists info, lookup e "/home/u" = Some info /\ unreadable_below info)).
  { right; right. eexists; split; [reflexivity|].
    eapply ub_entry; [left; reflexivity|]. eapply ub_entry; [left; reflexivity|]. apply ub_here. }
  split; [exact Hr|]. split; [exact Hc|].
  exact (discovery_error_exits (fun s => s) e "" 8 "/home/u" Hr Hc).
Defined.

(** C10: [newModel] accepts any concurrency.  With a non-empty list and
    concurrency 0, [Init] starts nothing and no event ever sets [done];
    with a negative concurrency, [Init] panics (negative [make] length). *)
Theorem concurrency_not_validated (dirs : list string) :
  dirs <> [] ->
  (exists w0, init_world (initial_model dirs 0) = Some w0 /\ dispatched w0 = [] /\
     forall evs, done (w_model (run_events evs w0)) = false) /\
  (forall c, c < 0 -> Init (initial_model dirs c) = InitPanic).
Proof.
  intros Hne.
  assert (Nat.eqb (length dirs) 0 = false) as Hl by (destruct dirs; [congruence|reflexivity]).
  split.
  - unfold init_world, Init; simpl. rewrite Hl.
    assert (Z.min 0 (Zlen dirs) = 0) as -> by (unfold Zlen; lia).
    simpl. eexists; split; [reflexivity|]. split; [reflexivity|].
    intros evs. apply run_events_idle. split; reflexivity.
  - intros c Hc. unfold Init; simpl. rewrite Hl.
    assert ((Z.min c (Zlen dirs) <? 0) = true) as -> by (apply Z.ltb_lt; unfold Zlen; lia).
    reflexivity.
Qed.

Lemma concurrency_not_validated_witness :
  ["/r/a"] <> [] /\
  (exists w0, init_world (initial_model ["/r/a"] 0) = Some w0 /\ dispatched w0 = [] /\
     forall evs, done (w_model (run_events evs w0)) = false) /\
  (forall c, c < 0 -> Init (initial_model ["/r/a"] c) = InitPanic).
Proof.
  assert (H : ["/r/a"] <> []) by discriminate.
  split; [exact H|]. exact (concurrency_not_validated ["/r/a"] H).
Defined.


(* ================================================================== *)
(** ** Further properties of the program *)

(** X1: terminal input (resize, key, spinner tick, progress frame) never
    touches the scheduler: the directories, [done], the counters and the
    progress target stay as they were, no [git gc] is started and nothing
    is printed. *)
Theorem ui_input_preserves_scheduler (w : world) (u : ui_input) :
  let w' := step w (UIInput u) in
  directories (w_model w') = directories (w_model w) /\
  done (w_model w') = done (w_model w) /\
  index (w_model w') = index (w_model w) /\
  nextIndex (w_model w') = nextIndex (w_model w) /\
  inFlight (w_model w') = inFlight (w_model w) /\
  progress_target (w_model w') = progress_target (w_model w) /\
  pending w' = pending w /\ dispatched w' = dispatched w /\ printed w' = printed w.
Proof.
  simpl. unfold deliver. destruct (quitting w); [repeat split; reflexivity|].
  assert (Hms : forall d, ui_msg u <> DirGitGCCompleted d) by (intros d; destruct u; discriminate).
  destruct (Update_not_completed (w_model w) (ui_msg u) Hms)
    as (Ed & Edn & Ei & En & Ef & Ep & Eg & Epr).
  destruct (Update (w_model w) (ui_msg u)) as [m' cm]; simpl in *.
  rewrite Eg, Epr, !app_nil_r. repeat split; assumption.
Qed.

(** X6: at no point do more than [min c (len dirs)] [git gc] processes run
    at the same time (whatever the order in which they finish, and whether
    they fail). *)
Theorem running_processes_bounded (dirs : list string) (c : Z) (evs : list event)
    (w0 : world) :
  init_world (initial_model dirs c) = Some w0 ->
  (length (pending (run_events evs w0)) <= Z.to_nat (Z.min c (Zlen dirs)))%nat.
Proof.
  intros H. destruct (run_inv_reachable dirs c evs w0 H)
    as (_ & _ & _ & _ & _ & _ & _ & _ & Hl). exact Hl.
Qed.

Lemma running_processes_bounded_witness :
  init_world (initial_model demo_dirs 2) = Some demo_world0 /\
  (length (pending (run_events demo_events demo_world0)) <=
     Z.to_nat (Z.min 2 (Zlen demo_dirs)))%nat.
Proof.
  assert (Hi : init_world (initial_model demo_dirs 2) = Some demo_world0) by reflexivity.
  split; [exact Hi|]. exact (running_processes_bounded _ _ demo_events _ Hi).
Defined.

(** X7: every [git gc] the program ever starts runs in one of the
    directories [findDirectories] returned. *)
Theorem gc_only_on_listed_dirs (dirs : list string) (c : Z) (evs : list event) (w0 : world) :
  init_world (initial_model dirs c) = Some w0 ->
  forall d, In d (dispatched (run_events evs w0)) -> In d dirs.
Proof.
  intros H. destruct (run_inv_reachable dirs c evs w0 H)
    as (_ & _ & _ & _ & _ & Hdis & _). exact Hdis.
Qed.

Lemma gc_only_on_listed_dirs_witness :
  init_world (initial_model demo_dirs 2) = Some demo_world0 /\
  forall d, In d (dispatched (run_events demo_events demo_world0)) -> In d demo_dirs.
Proof.
  assert (Hi : init_world (initial_model demo_dirs 2) = Some demo_world0) by reflexivity.
  split; [exact Hi|]. exact (gc_only_on_listed_dirs _ _ demo_events _ Hi).
Defined.

(** X8: on a non-empty list with a non-negative concurrency [c], [Init]
    starts [git gc] on the first [min c (len dirs)] directories, in list
    order, prints nothing and does not quit. *)
Theorem Init_starts_prefix (dirs : list string) (c : Z) :
  dirs <> [] -> 0 <= c ->
  exists cm, Init (initial_model dirs c) = InitCmd cm /\
    gc_runs cm = firstn (Z.to_nat (Z.min c (Zlen dirs))) dirs /\
    prints cm = [] /\ quits cm = false.
Proof.
  intros Hne Hc.
  destruct (Init (initial_model dirs c)) as [|cm] eqn:E;
    [exfalso; exact (Init_no_panic dirs c Hc E)|].
  destruct (Init_initial dirs c cm E) as (G & P & Q & _).
  exists cm. split; [reflexivity|]. split; [exact G|]. split; [exact P|].
  destruct (quits cm); [exfalso; apply Hne, Q; reflexivity | reflexivity].
Qed.

Lemma Init_starts_prefix_witness :
  ["/r/a"; "/r/b"; "/r/c"] <> [] /\ 0 <= 2 /\
  exists cm, Init (initial_model ["/r/a"; "/r/b"; "/r/c"] 2) = InitCmd cm /\
    gc_runs cm = firstn (Z.to_nat (Z.min 2 (Zlen ["/r/a"; "/r/b"; "/r/c"])))
                   ["/r/a"; "/r/b"; "/r/c"] /\
    prints cm = [] /\ quits cm = false.
Proof.
  assert (Hne : ["/r/a"; "/r/b"; "/r/c"] <> []) by discriminate.
  assert (Hc : 0 <= 2) by lia.
  split; [exact Hne|]. split; [exact Hc|]. exact (Init_starts_prefix _ 2 Hne Hc).
Defined.

(** X9: one call of [Update] starts at most one [git gc] and prints at most
    one line; the call that sets [done] is a completion that brings the
    count to the number of directories, starts nothing and quits. *)
Theorem Update_step_effects (m : model) (ms : msg) :
  (length (gc_runs (snd (Update m ms))) <= 1)%nat /\
  (length (prints (snd (Update m ms))) <= 1)%nat /\
  (done m = false -> done (fst (Update m ms)) = true ->
     exists d, ms = DirGitGCCompleted d /\ index m + 1 >= Zlen (directories m) /\
       gc_runs (snd (Update m ms)) = [] /\ quits (snd (Update m ms)) = true).
Proof.
  destruct (Update_effects_small m ms) as [G P].
  split; [exact G|]. split; [exact P|]. intros Hf Ht.
  destruct (classic_msg ms) as [[d ->]|Hms].
  - destruct (Update_completed m d) as (_ & _ & _ & _ & Hge & Hlt).
    destruct (Z_lt_ge_dec (index m + 1) (Zlen (directories m))) as [Hl1|Hg1].
    + destruct (Hlt Hl1) as (Edn & _). congruence.
    + destruct (Hge Hg1) as (_ & Eq & Eg). exists d. auto.
  - destruct (Update_not_completed m ms Hms) as (_ & Edn & _). congruence.
Qed.

Lemma Update_step_effects_witness :
  done (initial_model ["/r/a"] 1) = false /\
  done (fst (Update (initial_model ["/r/a"] 1) (DirGitGCCompleted "/r/a"))) = true /\
  exists d, DirGitGCCompleted "/r/a" = DirGitGCCompleted d /\
    index (initial_model ["/r/a"] 1) + 1 >= Zlen (directories (initial_model ["/r/a"] 1)) /\
    gc_runs (snd (Update (initial_model ["/r/a"] 1) (DirGitGCCompleted "/r/a"))) = [] /\
    quits (snd (Update (initial_model ["/r/a"] 1) (DirGitGCCompleted "/r/a"))) = true.
Proof.
  assert (Hf : done (initial_model ["/r/a"] 1) = false) by reflexivity.
  assert (Ht : done (fst (Update (initial_model ["/r/a"] 1) (DirGitGCCompleted "/r/a"))) = true)
    by reflexivity.
  split; [exact Hf|]. split; [exact Ht|].
  destruct (Update_step_effects (initial_model ["/r/a"] 1) (DirGitGCCompleted "/r/a"))
    as (_ & _ & H).
  exact (H Hf Ht).
Defined.

(** X10: when the root is a directory, [findDirectories] succeeds exactly
    when no directory the walk visits (hidden ones included) is unreadable;
    otherwise it returns the permission error of the first unreadable
    directory in visiting order, and the program exits with status 1. *)
Theorem findDirectories_first_unreadable (values : hashset -> list string) (e : env)
    (rootDir root : string) (r : bool) (ents : list (string * node)) :
  resolve_root e rootDir = Ok root -> lookup e root = Some (Dir r ents) ->
  (first_unreadable (walk_order root (base root) (Dir r ents)) = None ->
     exists ds, findDirectories values e rootDir = Ok ds) /\
  (forall p, first_unreadable (walk_order root (base root) (Dir r ents)) = Some p ->
     findDirectories values e rootDir = Err (ErrPermission p) /\
     forall n, run_main values e rootDir n = MainExit 1).
Proof.
  intros Hr Hl.
  assert (Hf : findDirectories values e rootDir =
            bind (walk root (base root) (Dir r ents) []) (fun d => Ok (slices_Sort (values d))))
    by (unfold findDirectories; rewrite Hr; simpl; rewrite Hl; reflexivity).
  destruct (walk_first_unreadable (Dir r ents) root (base root) [])
    as [(a & Ea & Fa)|(q & Ea & Fa)]; rewrite Fa.
  - split; [intros _; exists (slices_Sort (values a)); rewrite Hf, Ea; reflexivity|].
    intros p Hp; discriminate.
  - split; [intros Hp; discriminate|].
    intros p Hp. injection Hp as <-.
    assert (E : findDirectories values e rootDir = Err (ErrPermission q))
      by (rewrite Hf, Ea; reflexivity).
    split; [exact E|]. intros n. unfold run_main, newModel. rewrite E. reflexivity.
Qed.

Lemma findDirectories_first_unreadable_witness :
  resolve_root locked_env "" = Ok "/home/u" /\
  lookup locked_env "/home/u" =
    Some (Dir true [("a", Dir true [("secret", Dir false [])]); ("b", Dir false [])]) /\
  first_unreadable (walk_order "/home/u" (base "/home/u")
    (Dir true [("a", Dir true [("secret", Dir false [])]); ("b", Dir false [])])) =
    Some "/home/u/a/secret" /\
  findDirectories (fun s => s) locked_env "" = Err (ErrPermission "/home/u/a/secret") /\
  forall n, run_main (fun s => s) locked_env "" n = MainExit 1.
Proof.
  assert (Hr : resolve_root locked_env "" = Ok "/home/u") by reflexivity.
  assert (Hl : lookup locked_env "/home/u" =
    Some (Dir true [("a", Dir true [("secret", Dir false [])]); ("b", Dir false [])]))
    by reflexivity.
  assert (Hp : first_unreadable (walk_order "/home/u" (base "/home/u")
    (Dir true [("a", Dir true [("secret", Dir false [])]); ("b", Dir false [])])) =
    Some "/home/u/a/secret") by (vm_compute; reflexivity).
  split; [exact Hr|]. split; [exact Hl|]. split; [exact Hp|].
  destruct (findDirectories_first_unreadable (fun s => s) locked_env "" "/home/u" _ _ Hr Hl)
    as [_ H].
  exact (H _ Hp).
Defined.

(** X11: with the default root (the only one [main] uses), when the home
    directory cannot be determined [findDirectories] returns that error and
    [main] exits with status 1. *)
Theorem home_dir_missing_exits (values : hashset -> list string) (e : env) (numCPU : Z) :
  user_home_dir e = None ->
  findDirectories values e "" = Err ErrUserHomeDir /\ main values e numCPU = MainExit 1.
Proof.
  intros H.
  assert (E : findDirectories values e "" = Err ErrUserHomeDir)
    by (unfold findDirectories, resolve_root; simpl; rewrite H; reflexivity).
  split; [exact E|]. unfold main, run_main, newModel. rewrite E. reflexivity.
Qed.

Lemma home_dir_missing_exits_witness :
  user_home_dir (mkEnv None (fun s => Some s) (fun _ => None)) = None /\
  findDirectories (fun s => s) (mkEnv None (fun s => Some s) (fun _ => None)) "" =
    Err ErrUserHomeDir /\
  main (fun s => s) (mkEnv None (fun s => Some s) (fun _ => None)) 8 = MainExit 1.
Proof.
  assert (H : user_home_dir (mkEnv None (fun s => Some s) (fun _ => None)) = None)
    by reflexivity.
  split; [exact H|]. exact (home_dir_missing_exits (fun s => s) _ 8 H).
Defined.

(** X12: when the enumeration succeeds and the CPU count is non-negative,
    [main] starts the program on the model [newModel] built: the first
    [min numCPU (len dirs)] directories are started, nothing is printed,
    and the program quits at once exactly when the list is empty. *)
Theorem main_starts_program (values : hashset -> list string) (e : env) (numCPU : Z)
    (dirs : list string) :
  findDirectories values e "" = Ok dirs -> 0 <= numCPU ->
  exists w, main values e numCPU = MainRun w /\ w_model w = initial_model dirs numCPU /\
    dispatched w = firstn (Z.to_nat (Z.min numCPU (Zlen dirs))) dirs /\
    pending w = dispatched w /\ printed w = [] /\ (quitting w = true <-> dirs = []).
Proof.
  intros Hf Hc. unfold main, run_main, newModel. rewrite Hf. simpl.
  unfold init_world.
  destruct (Init (initial_model dirs numCPU)) as [|cm] eqn:E.
  - destruct dirs as [|x dirs'].
    + unfold Init in E. simpl in E. discriminate.
    + exfalso. exact (Init_no_panic _ _ Hc E).
  - destruct (Init_initial dirs numCPU cm E) as (G & P & Q & _).
    eexists. split; [reflexivity|]. simpl. auto.
Qed.

Lemma main_starts_program_witness :
  findDirectories (fun s => s) example_env "" = Ok ["/r/.hidden/repo"; "/r/a"; "/r/b"] /\
  0 <= 2 /\
  exists w, main (fun s => s) example_env 2 = MainRun w /\
    w_model w = initial_model ["/r/.hidden/repo"; "/r/a"; "/r/b"] 2 /\
    dispatched w = firstn (Z.to_nat (Z.min 2 (Zlen ["/r/.hidden/repo"; "/r/a"; "/r/b"])))
                     ["/r/.hidden/repo"; "/r/a"; "/r/b"] /\
    pending w = dispatched w /\ printed w = [] /\
    (quitting w = true <-> ["/r/.hidden/repo"; "/r/a"; "/r/b"] = []).
Proof.
  assert (Hf : findDirectories (fun s => s) example_env "" =
               Ok ["/r/.hidden/repo"; "/r/a"; "/r/b"]) by (vm_compute; reflexivity).
  assert (Hc : 0 <= 2) by lia.
  split; [exact Hf|]. split; [exact Hc|]. exact (main_starts_program _ _ 2 _ Hf Hc).
Defined.

(** The remaining properties are stated on the event loop of
    [tea.Program] ([p_init], [p_step], [p_run]), where the commands of a
    batch run concurrently and messages keep reaching [Update] until the
    loop takes a quit. *)

(** X2: the quit key does not interrupt a running [git gc].  With one
    directory and concurrency 1, after "q" the loop may take the
    completion of [/r/a] before the quit: the completion is counted and
    [done] is set, yet the program has not exited; when the loop then takes
    the quit, the checkmark for [/r/a] was never printed. *)
Theorem quit_key_overtaken :
  exists p0, p_init (initial_model ["/r/a"] 1) = Some p0 /\
    let p1 := p_run [Input (Key "q"); Handle 0 true; Handle 1 true] p0 in
    p_exited p1 = false /\ p_ran p1 = ["/r/a"] /\
    index (p_model p1) = 1 /\ done (p_model p1) = true /\
    p_exited (p_run [Handle 0 true] p1) = true /\
    p_printed (p_run [Handle 0 true] p1) = [].
Proof.
  eexists. split; [reflexivity|]. vm_compute. repeat split.
Qed.

(** X3: at every state of a program started on [initial_model dirs c],
    the checkmarks printed so far plus those still queued are exactly the
    completions counted in [index]; so no more checkmarks are printed than
    completions were counted, and each names a directory of the list. *)
Theorem checkmarks_bounded (dirs : list string) (c : Z) (evs : list p_event) (p0 : program) :
  p_init (initial_model dirs c) = Some p0 ->
  let p := p_run evs p0 in
  Zlen (p_printed p) + Z.of_nat (count_prints (p_jobs p)) = index (p_model p) /\
  Zlen (p_printed p) <= index (p_model p) /\
  (forall d, In d (p_printed p) -> In d dirs).
Proof.
  intros H. cbv zeta.
  destruct (prog_inv_reachable dirs c evs p0 H) as (_ & _ & _ & _ & Hpr & Hprn & _).
  split; [exact Hpr|]. split; [lia | exact Hprn].
Qed.

Lemma checkmarks_bounded_witness :
  p_init (initial_model demo_dirs 2) = Some demo_program0 /\
  let p := p_run demo_p_events demo_program0 in
  Zlen (p_printed p) + Z.of_nat (count_prints (p_jobs p)) = index (p_model p) /\
  Zlen (p_printed p) <= index (p_model p) /\
  (forall d, In d (p_printed p) -> In d demo_dirs).
Proof.
  assert (Hi : p_init (initial_model demo_dirs 2) = Some demo_program0) by reflexivity.
  split; [exact Hi|]. exact (checkmarks_bounded _ _ demo_p_events _ Hi).
Defined.

(** X4: at every state of a program started on [initial_model dirs c],
    [done] is set exactly when at least one completion was counted and the
    count has reached the number of directories. *)
Theorem done_iff_count_reached (dirs : list string) (c : Z) (evs : list p_event)
    (p0 : program) :
  p_init (initial_model dirs c) = Some p0 ->
  (done (p_model (p_run evs p0)) = true <->
   0 < index (p_model (p_run evs p0)) /\ Zlen dirs <= index (p_model (p_run evs p0))).
Proof.
  intros H. destruct (prog_inv_reachable dirs c evs p0 H) as (_ & Hdn & _). exact Hdn.
Qed.

Lemma done_iff_count_reached_witness :
  p_init (initial_model demo_dirs 2) = Some demo_program0 /\
  (done (p_model (p_run demo_p_events demo_program0)) = true <->
   0 < index (p_model (p_run demo_p_events demo_program0)) /\
   Zlen demo_dirs <= index (p_model (p_run demo_p_events demo_program0))).
Proof.
  assert (Hi : p_init (initial_model demo_dirs 2) = Some demo_program0) by reflexivity.
  split; [exact Hi|]. exact (done_iff_count_reached _ _ demo_p_events _ Hi).
Defined.

(** X5: at every state of a program started on [initial_model dirs c],
    the progress target is 0 before the first completion and
    [index / len dirs] after it; once [done] is set it is at least 1. *)
Theorem progress_follows_count (dirs : list string) (c : Z) (evs : list p_event)
    (p0 : program) :
  p_init (initial_model dirs c) = Some p0 ->
  let m := p_model (p_run evs p0) in
  (index m = 0 -> progress_target m = 0%Q) /\
  (0 < index m -> progress_target m = (inject_Z (index m) / inject_Z (Zlen dirs))%Q) /\
  (done m = true -> (1 <= progress_target m)%Q).
Proof.
  intros H m.
  destruct (prog_inv_reachable dirs c evs p0 H) as (_ & Hdn & Hne & Hpt & _).
  fold m in Hdn, Hne, Hpt.
  assert (Hpos : 0 < index m -> progress_target m = (inject_Z (index m) / inject_Z (Zlen dirs))%Q).
  { intros Hi. rewrite Hpt. destruct (index m =? 0) eqn:E; [apply Z.eqb_eq in E; lia|reflexivity]. }
  split; [intros E; rewrite Hpt, E; reflexivity|]. split; [exact Hpos|].
  intros Hd. destruct (proj1 Hdn Hd) as [Hi Hl].
  assert (Hn : 0 < Zlen dirs).
  { destruct dirs as [|x l]; [exfalso; exact (Hne Hi eq_refl)|].
    unfold Zlen; simpl; lia. }
  rewrite (Hpos Hi). apply Qle_shift_div_l.
  - change 0%Q with (inject_Z 0). rewrite <- Zlt_Qlt. exact Hn.
  - rewrite Qmult_1_l, <- Zle_Qle. exact Hl.
Qed.

Lemma progress_follows_count_witness :
  p_init (initial_model demo_dirs 2) = Some demo_program0 /\
  let m := p_model (p_run demo_p_events demo_program0) in
  (index m = 0 -> progress_target m = 0%Q) /\
  (0 < index m -> progress_target m = (inject_Z (index m) / inject_Z (Zlen demo_dirs))%Q) /\
  (done m = true -> (1 <= progress_target m)%Q).
Proof.
  assert (Hi : p_init (initial_model demo_dirs 2) = Some demo_program0) by reflexivity.
  split; [exact Hi|]. exact (progress_follows_count _ _ demo_p_events _ Hi).
Defined.

(** X13: what the program shows at every state of a program started on
    [initial_model dirs c]: either the final message with the number of
    directories, once the count has reached it, or the running line
    "Cleaning repos... i/n complete" with the bar at the progress target
    and the count " i/n", where [i] is 0 or below [n]. *)
Theorem View_during_program (dirs : list string) (c : Z) (evs : list p_event)
    (p0 : program) :
  p_init (initial_model dirs c) = Some p0 ->
  let m := p_model (p_run evs p0) in
  match View m with
  | ViewDone t =>
      t = ("Done! Ran garbage collection on " ++ z2s (Zlen dirs) ++ " repos.")%string /\
      0 < index m /\ Zlen dirs <= index m
  | ViewRunning info bar cnt =>
      info = ("Cleaning repos... " ++ z2s (index m) ++ "/" ++ z2s (Zlen dirs) ++ " complete")%string /\
      bar = progress_target m /\
      cnt = (" " ++ z2s (index m) ++ "/" ++ z2s (Zlen dirs))%string /\
      (index m = 0 \/ index m < Zlen dirs)
  end.
Proof.
  intros H m.
  destruct (prog_inv_reachable dirs c evs p0 H) as ((Hd & _ & H0 & _ & _ & Hle) & Hdn & _).
  fold m in Hd, H0, Hle, Hdn.
  unfold View. rewrite Hd.
  destruct (done m) eqn:D.
  - destruct (proj1 Hdn eq_refl) as [Hi Hl]. auto.
  - split; [reflexivity|]. split; [reflexivity|]. split; [reflexivity|].
    specialize (Hle eq_refl).
    destruct (Z.eq_dec (index m) 0) as [E|E]; [left; exact E|right].
    destruct (Z.eq_dec (index m) (Zlen dirs)) as [E'|E']; [|lia].
    assert (Ht : false = true) by (apply Hdn; lia). discriminate Ht.
Qed.

Lemma View_during_program_witness :
  p_init (initial_model demo_dirs 2) = Some demo_program0 /\
  let m := p_model (p_run demo_p_events demo_program0) in
  match View m with
  | ViewDone t =>
      t = ("Done! Ran garbage collection on " ++ z2s (Zlen demo_dirs) ++ " repos.")%string /\
      0 < index m /\ Zlen demo_dirs <= index m
  | ViewRunning info bar cnt =>
      info = ("Cleaning repos... " ++ z2s (index m) ++ "/" ++ z2s (Zlen demo_dirs) ++ " complete")%string /\
      bar = progress_target m /\
      cnt = (" " ++ z2s (index m) ++ "/" ++ z2s (Zlen demo_dirs))%string /\
      (index m = 0 \/ index m < Zlen demo_dirs)
  end.
Proof.
  assert (Hi : p_init (initial_model demo_dirs 2) = Some demo_program0) by reflexivity.
  split; [exact Hi|]. exact (View_during_program _ _ demo_p_events _ Hi).
Defined.

(** X14: completions that reach [Update] after [done] is set are still
    counted.  With [/r/a], [/r/b], [/r/c] and concurrency 2, the runs
    started by [Init] and by the first two completions are [/r/a], [/r/b],
    [/r/a], [/r/b]; the third completion sets [done] and drops the start of
    [/r/c]; the fourth arrives before the quit is taken and raises the count
    to 4 of 3 and the progress target to 4/3, while [/r/c] never runs and
    the view reports 3 repositories. *)
Theorem late_completion_counted :
  exists p0, p_init (initial_model demo_dirs 2) = Some p0 /\
    let p := p_run [Handle 0 true; Handle 1 true; Handle 0 true; Handle 2 true;
                    Handle 0 true; Handle 3 true; Handle 1 true; Handle 4 true] p0 in
    p_exited p = false /\ p_ran p = ["/r/a"; "/r/b"; "/r/a"; "/r/b"] /\
    ~ In "/r/c" (p_ran p) /\
    index (p_model p) = 4 /\ done (p_model p) = true /\
    progress_target (p_model p) = (inject_Z 4 / inject_Z 3)%Q /\
    View (p_model p) = ViewDone "Done! Ran garbage collection on 3 repos.".
Proof.
  eexists. split; [reflexivity|]. vm_compute.
  split; [reflexivity|]. split; [reflexivity|].
  split; [intros [E|[E|[E|[E|[]]]]]; discriminate E|].
  repeat split.
Qed.
